(** * bubblesort.py: extraction, sorting and rendering of numbers

    A shallow embedding of [testfiles/bubblesort.py] and the properties
    its specification states about it.

    - [BubbleSort]: [bubble_sort], index by index, over any element type
      that has a [>] test, with every subscript checked.
    - [Numbers]: Python's [int] and [float] values, their comparison,
      [int(t)], [float(t)], [str(x)].
    - [Extraction]: the pattern of [read_numbers] and [re.findall].
    - [Driver]: [main] over a file system and a standard output. *)

From Stdlib Require Import ZArith Lia.
From Stdlib Require Ascii String DecimalString DecimalZ.
From Equations Require Import Equations.
From stdpp Require Import base option list sorting gmap strings.

Local Open Scope nat_scope.

(** ** The sorter *)

Section BubbleSort.

(** Python's lists are heterogeneous and [bubble_sort] asks of its
    elements only that [a > b] answers; [A] and [gt] stand for both. *)
Context {A : Type} (gt : A → A → bool).

(** The state of one pass of the inner loop: the list, the [swapped]
    flag, and two counters that the source does not have and that only
    record how many comparisons and exchanges the pass has made. *)
Record pass_state := PassState {
  ps_arr : list A;
  ps_swapped : bool;
  ps_comparisons : nat;
  ps_swaps : nat
}.

(** The body of the inner loop at index [j].

    [arr[j]] and [arr[j + 1]] are subscripts: out of range they raise
    [IndexError], which is [None] here.  The exchange
    [arr[j], arr[j + 1] = arr[j + 1], arr[j]] reads both right-hand
    values first, then stores into [arr[j]], then into [arr[j + 1]]. *)
Definition inner_body (j : nat) (st : pass_state) : option pass_state :=
  a ← ps_arr st !! j;
  b ← ps_arr st !! (j + 1);
  if gt a b then
    Some (PassState (<[j + 1 := a]> (<[j := b]> (ps_arr st))) true
                    (S (ps_comparisons st)) (S (ps_swaps st)))
  else
    Some (PassState (ps_arr st) (ps_swapped st)
                    (S (ps_comparisons st)) (ps_swaps st)).

(** [for j in range(...)]: the body at each index in turn. *)
Fixpoint inner_loop (js : list nat) (st : pass_state) : option pass_state :=
  match js with
  | [] => Some st
  | j :: js' => st' ← inner_body j st; inner_loop js' st'
  end.

(** What a run did: the comparisons of each pass, in order, and the
    number of exchanges over all passes. *)
Record sort_stats := SortStats {
  pass_comparisons : list nat;
  total_swaps : nat
}.

Definition no_stats : sort_stats := SortStats [] 0.

Definition record_pass (s : sort_stats) (st : pass_state) : sort_stats :=
  SortStats (pass_comparisons s ++ [ps_comparisons st])
            (total_swaps s + ps_swaps st).

(** [for i in range(n)] with its [break].  [range(0, n - i - 1)] is
    empty when [n - i - 1] is not positive, as is [seq 0 (n - i - 1)]
    with the truncated subtraction. *)
Fixpoint outer_loop (idxs : list nat) (n : nat) (arr : list A)
    (s : sort_stats) : option (list A * sort_stats) :=
  match idxs with
  | [] => Some (arr, s)
  | i :: idxs' =>
      st ← inner_loop (seq 0 (n - i - 1)) (PassState arr false 0 0);
      if negb (ps_swapped st) then Some (ps_arr st, record_pass s st)
      else outer_loop idxs' n (ps_arr st) (record_pass s st)
  end.

Definition bubble_sort_run (arr : list A) : option (list A * sort_stats) :=
  let n := length arr in
  outer_loop (seq 0 n) n arr no_stats.

(** [bubble_sort(arr)]: the list it returns, or [None] for an
    [IndexError]. *)
Definition bubble_sort (arr : list A) : option (list A) :=
  fst <$> bubble_sort_run arr.

(** *** One pass, as a function of the list alone

    [bubble x l] carries [x] through [l], leaving behind the smaller of
    each adjacent pair: what a pass does to [x :: l].  Its second and
    third components are the flag and the number of exchanges. *)
Fixpoint bubble (x : A) (l : list A) : list A * bool * nat :=
  match l with
  | [] => ([x], false, 0)
  | y :: l' =>
      if gt x y then
        let '(r, _, k) := bubble x l' in (y :: r, true, S k)
      else
        let '(r, s, k) := bubble y l' in (x :: r, s, k)
  end.

(** [a <= b], as the sorter sees it: the test [a > b] fails. *)
Definition not_gt (a b : A) : Prop := gt a b = false.

(** The passes that remain when the last [length suf] places are
    settled: [passes pre suf s out s'] carries the list [pre ++ suf] and
    the statistics [s] to the result [out] and the statistics [s'].
    The loop ends when nothing is left to pass over, or after a pass
    without exchange; otherwise the pass settles one more place. *)
Inductive passes : list A → list A → sort_stats → list A → sort_stats → Prop :=
| passes_done suf s :
    passes [] suf s suf s
| passes_break x l suf s :
    (bubble x l).1.2 = false →
    passes (x :: l) suf s ((bubble x l).1.1 ++ suf)
           (SortStats (pass_comparisons s ++ [length l])
                      (total_swaps s + (bubble x l).2))
| passes_next x l suf s r y out s' :
    (bubble x l).1.2 = true →
    (bubble x l).1.1 = r ++ [y] →
    passes r (y :: suf)
           (SortStats (pass_comparisons s ++ [length l])
                      (total_swaps s + (bubble x l).2)) out s' →
    passes (x :: l) suf s out s'.

End BubbleSort.

(** ** Numbers *)

Local Open Scope Z_scope.

(** A Python [str] is a sequence of Unicode code points. *)
Definition char := N.
Definition text := list char.

(** The text of an ASCII literal. *)
Definition text_of_string (s : string) : text :=
  Ascii.N_of_ascii <$> String.list_ascii_of_string s.

Definition char_plus : char := 43%N.
Definition char_minus : char := 45%N.
Definition char_dot : char := 46%N.

(** The code points of the digit zero of every script of Unicode 14.0
    (general category Nd), the table behind [\d], [int] and [float] in
    CPython 3.11; the digits one to nine of a script follow its zero. *)
Definition decimal_zeros : list N :=
  [48; 1632; 1776; 1984; 2406; 2534; 2662; 2790; 2918; 3046; 3174; 3302;
   3430; 3558; 3664; 3792; 3872; 4160; 4240; 6112; 6160; 6470; 6608; 6784;
   6800; 6992; 7088; 7232; 7248; 42528; 43216; 43264; 43472; 43504; 43600;
   44016; 65296; 66720; 68912; 69734; 69872; 69942; 70096; 70384; 70736;
   70864; 71248; 71360; 71472; 71904; 72016; 72784; 73040; 73120; 92768;
   92864; 93008; 120782; 120792; 120802; 120812; 120822; 123200; 123632;
   125264; 130032]%N.

(** The value of a decimal digit, [None] for any other character. *)
Definition decimal_value (c : char) : option Z :=
  (λ z, Z.of_N (c - z)) <$>
    find (λ z, (z <=? c)%N && (c <? z + 10)%N) decimal_zeros.

Definition is_digit (c : char) : bool := bool_decide (is_Some (decimal_value c)).
Definition is_sign (c : char) : bool := (c =? char_plus)%N || (c =? char_minus)%N.
Definition is_dot (c : char) : bool := (c =? char_dot)%N.

(** A [float] is a binary64 number.  Every finite one is a whole multiple
    of [2 ^ -1074]: [FFinite neg u] is [u / scale], negated when [neg]
    is set, so that [FFinite true 0] is [-0.0]. *)
Inductive pyfloat :=
| FFinite (neg : bool) (u : N)
| FInf (neg : bool)
| FNaN.

(** The values of the list that [read_numbers] returns. *)
Inductive pynum :=
| PyInt (z : Z)
| PyFloat (f : pyfloat).

Definition scale : Z := 2 ^ 1074.

(** [2 ^ 1024], in units of [2 ^ -1074]: the first magnitude that is
    beyond the largest finite binary64 number. *)
Definition overflow_bound : Z := 2 ^ 2098.


(** *** Comparison

    Python compares numbers by their exact values, also an [int] with a
    [float]; a NaN compares false with everything. *)
Inductive xval :=
| XNegInf
| XFin (z : Z)
| XPosInf.

Definition xval_ltb (a b : xval) : bool :=
  match a, b with
  | XNegInf, XNegInf => false
  | XNegInf, _ => true
  | XFin _, XNegInf => false
  | XFin x, XFin y => x <? y
  | XFin _, XPosInf => true
  | XPosInf, _ => false
  end.

Definition xval_eqb (a b : xval) : bool :=
  match a, b with
  | XNegInf, XNegInf => true
  | XFin x, XFin y => x =? y
  | XPosInf, XPosInf => true
  | _, _ => false
  end.

(** The value of a number in units of [2 ^ -1074]; [None] for NaN. *)
Definition num_key (x : pynum) : option xval :=
  match x with
  | PyInt z => Some (XFin (z * scale))
  | PyFloat (FFinite neg u) => Some (XFin (if neg then - Z.of_N u else Z.of_N u))
  | PyFloat (FInf neg) => Some (if neg then XNegInf else XPosInf)
  | PyFloat FNaN => None
  end.

(** [x > y]. *)
Definition py_gt (x y : pynum) : bool :=
  match num_key x, num_key y with
  | Some a, Some b => xval_ltb b a
  | _, _ => false
  end.

(** [x == y]. *)
Definition py_eq (x y : pynum) : bool :=
  match num_key x, num_key y with
  | Some a, Some b => xval_eqb a b
  | _, _ => false
  end.

(** [x <= y]. *)
Definition py_le (x y : pynum) : bool :=
  match num_key x, num_key y with
  | Some a, Some b => negb (xval_ltb b a)
  | _, _ => false
  end.

(** The numbers proper: every value but NaN. *)
Definition is_number (x : pynum) : Prop := is_Some (num_key x).

(** *** From text to numbers *)

Definition round_half_even (n d : Z) : Z :=
  let q := n / d in
  let r := n mod d in
  if 2 * r <? d then q
  else if d <? 2 * r then q + 1
  else if Z.even q then q else q + 1.

(** The binary64 number nearest to [p / q], ties to the even significand,
    for [0 <= p] and [0 < q]: the conversion is correctly rounded, and
    what lies beyond the largest finite number becomes an infinity. *)
Definition float_of_ratio (neg : bool) (p q : Z) : pyfloat :=
  let t := (p * scale) / q in
  let k := Z.max 0 (Z.log2 t - 52) in
  let u := round_half_even (p * scale) (q * 2 ^ k) * 2 ^ k in
  if overflow_bound <=? u then FInf neg else FFinite neg (Z.to_N u).

Definition digits_value (ds : list Z) : Z :=
  fold_left (λ acc d, 10 * acc + d) ds 0.

Definition split_sign (t : text) : bool * text :=
  match t with
  | c :: r =>
      if (c =? char_minus)%N then (true, r)
      else if (c =? char_plus)%N then (false, r)
      else (false, t)
  | [] => (false, [])
  end.

(** [int(t)] for a text of the shape sign, digits; [None] is
    [ValueError].  Python reads a few more shapes (blanks around the
    number, underscores between digits) that no token has, and from
    version 3.11 refuses texts of more than [sys.int_max_str_digits]
    digits, a limit of the interpreter that is not part of this model. *)
Definition py_int (t : text) : option Z :=
  let '(neg, body) := split_sign t in
  ds ← mapM decimal_value body;
  if decide (ds = []) then None
  else Some (if neg then - digits_value ds else digits_value ds).

Fixpoint split_dot (t : text) : text * option text :=
  match t with
  | [] => ([], None)
  | c :: r =>
      if is_dot c then ([], Some r)
      else let '(a, b) := split_dot r in (c :: a, b)
  end.

(** [float(t)] for a text of the shape sign, digits, point, digits, with
    a digit on at least one side of the point; [None] is [ValueError].
    Exponents, [inf] and [nan] are shapes that no token has. *)
Definition py_float (t : text) : option pyfloat :=
  let '(neg, body) := split_sign t in
  let '(ip, fp) := split_dot body in
  ids ← mapM decimal_value ip;
  fds ← mapM decimal_value (default [] fp);
  if decide (ids ++ fds = []) then None
  else Some (float_of_ratio neg (digits_value (ids ++ fds))
                            (10 ^ Z.of_nat (length fds))).

(** ["." in t]. *)
Definition contains_dot (t : text) : bool := existsb is_dot t.

(** [float(t) if "." in t else int(t)]. *)
Definition parse_token (t : text) : option pynum :=
  if contains_dot t then PyFloat <$> py_float t else PyInt <$> py_int t.

(** *** From numbers to text *)

(** [x.is_integer()]. *)
Definition is_integer (f : pyfloat) : bool :=
  match f with
  | FFinite _ u => Z.of_N u mod scale =? 0
  | _ => false
  end.

(** [int(x)] of a float: truncation; [None] is the [OverflowError] of an
    infinity or the [ValueError] of a NaN. *)
Definition int_of_float (f : pyfloat) : option Z :=
  match f with
  | FFinite neg u =>
      let m := Z.of_N u / scale in Some (if neg then - m else m)
  | _ => None
  end.

(** [str(z)] of an [int]. *)
Definition str_int (z : Z) : string :=
  DecimalString.NilZero.string_of_int (Z.to_int z).

(** [str(x)] of a [float] is its [repr]: the shortest decimal numeral
    that reads back as [x] and, among those, the nearest to [x].

    [decimal_exponent p q] is the [e] with [10 ^ e <= p / q < 10 ^ (e + 1)]. *)
Fixpoint exp_up (fuel : nat) (e pw p : Z) : Z :=
  match fuel with
  | O => e
  | S f => if 10 * pw <=? p then exp_up f (e + 1) (10 * pw) p else e
  end.

Fixpoint exp_down (fuel : nat) (e pw q : Z) : Z :=
  match fuel with
  | O => e
  | S f => if pw <? q then exp_down f (e - 1) (10 * pw) q else e
  end.

Definition decimal_exponent (p q : Z) : Z :=
  if q <=? p then exp_up 400 0 q p else exp_down 400 0 p q.

(** Does the numeral [d * 10 ^ s] read back as [u]? *)
Definition reads_back (u : N) (d s : Z) : bool :=
  let '(a, b) := if 0 <=? s then (d * 10 ^ s, 1) else (d, 10 ^ (- s)) in
  match float_of_ratio false a b with
  | FFinite _ u' => (u' =? u)%N
  | _ => false
  end.

(** The numeral with last digit at [10 ^ s] to print for [u], if one of
    the two numerals around [u] reads back: the nearer of the two when
    both do, the even one on a tie. *)
Definition candidate (u : N) (s : Z) : option Z :=
  let '(a, b) :=
    if 0 <=? s then (Z.of_N u, scale * 10 ^ s)
    else (Z.of_N u * 10 ^ (- s), scale) in
  let lo := a / b in
  let r := a mod b in
  let hi := lo + 1 in
  match reads_back u lo s, reads_back u hi s with
  | true, true =>
      Some (if 2 * r <? b then lo
            else if b <? 2 * r then hi
            else if Z.even lo then lo else hi)
  | true, false => Some lo
  | false, true => Some hi
  | false, false => None
  end.

(** One more digit at each step, from one digit on; seventeen always
    suffice. *)
Fixpoint shortest (fuel : nat) (u : N) (s : Z) : Z * Z :=
  match fuel with
  | O => (Z.of_N u * 10 ^ (- s) / scale, s)
  | S f =>
      match candidate u s with
      | Some d => (d, s)
      | None => shortest f u (s - 1)
      end
  end.

Fixpoint strip_zeros (fuel : nat) (d s : Z) : Z * Z :=
  match fuel with
  | O => (d, s)
  | S f =>
      if (d mod 10 =? 0) && (0 <? d) then strip_zeros f (d / 10) (s + 1)
      else (d, s)
  end.

(** The digits of [repr] and the position of the point: the value is
    [0.digits * 10 ^ decpt]. *)
Definition repr_digits (u : N) : string * Z :=
  let e := decimal_exponent (Z.of_N u) scale in
  let '(d, s) := shortest 17 u e in
  let '(d, s) := strip_zeros 17 d s in
  let ds := str_int d in
  (ds, Z.of_nat (String.length ds) + s).

Definition zeros (n : Z) : string :=
  String.string_of_list_ascii (replicate (Z.to_nat n) (Ascii.ascii_of_nat 48)).

(** The exponent of the scientific form: a sign and at least two digits. *)
Definition str_exponent (e : Z) : string :=
  (if e <? 0 then "-" else "+") +:+
  (if Z.abs e <? 10 then "0" else "") +:+ str_int (Z.abs e).

(** [repr] switches to the scientific form below [1e-4] and from [1e16]. *)
Definition format_repr (ds : string) (decpt : Z) : string :=
  let n := String.length ds in
  if (decpt <=? -4) || (16 <? decpt) then
    String.substring 0 1 ds +:+
    (if (1 <? n)%nat then "." +:+ String.substring 1 (n - 1) ds else "") +:+
    "e" +:+ str_exponent (decpt - 1)
  else if decpt <=? 0 then "0." +:+ zeros (- decpt) +:+ ds
  else if Z.of_nat n <=? decpt then ds +:+ zeros (decpt - Z.of_nat n) +:+ ".0"
  else String.substring 0 (Z.to_nat decpt) ds +:+ "." +:+
       String.substring (Z.to_nat decpt) (n - Z.to_nat decpt) ds.

Definition str_float (f : pyfloat) : string :=
  match f with
  | FNaN => "nan"
  | FInf neg => if neg then "-inf" else "inf"
  | FFinite neg u =>
      (if neg then "-" else "") +:+
      (if (u =? 0)%N then "0.0"
       else let '(ds, decpt) := repr_digits u in format_repr ds decpt)
  end.

(** The formatter of [main]:
    [str(int(x)) if isinstance(x, int) or
     (isinstance(x, float) and x.is_integer()) else str(x)];
    [None] is an exception of [int(x)]. *)
Definition render (x : pynum) : option string :=
  match x with
  | PyInt z => Some (str_int z)
  | PyFloat f =>
      if is_integer f then str_int <$> int_of_float f
      else Some (str_float f)
  end.

(** The values of the characters of a text of digits. *)
Definition digit_values (ds : text) : list Z :=
  (λ c, default 0 (decimal_value c)) <$> ds.





Definition has_point (s : string) : bool :=
  existsb (Ascii.eqb (Ascii.ascii_of_nat 46)) (String.list_ascii_of_string s).

(** ** Extraction *)

Local Open Scope nat_scope.

(** The constructs of the pattern of [read_numbers]: a character class,
    one or more of a class, an optional part, a sequence.  The group
    [(?:...)] does not capture and leaves no trace. *)
Inductive regex :=
| Class (p : char → bool)
| Plus (p : char → bool)
| Opt (r : regex)
| Seq (r1 r2 : regex).

(** A backtracking matcher, as Python's: [k] matches what follows in the
    pattern and answers with the text left after the whole match.  The
    quantifiers are greedy: they take the longest repetition first, and
    the optional part before its absence, and give back on failure. *)
Fixpoint plus_match (p : char → bool) (k : text → option text) (s : text)
    : option text :=
  match s with
  | [] => None
  | c :: s' =>
      if p c then
        match plus_match p k s' with
        | Some rest => Some rest
        | None => k s'
        end
      else None
  end.

Fixpoint rmatch (r : regex) (k : text → option text) (s : text) : option text :=
  match r with
  | Class p =>
      match s with
      | c :: s' => if p c then k s' else None
      | [] => None
      end
  | Plus p => plus_match p k s
  | Opt r' =>
      match rmatch r' k s with
      | Some rest => Some rest
      | None => k s
      end
  | Seq r1 r2 => rmatch r1 (rmatch r2 k) s
  end.

(** The length of the match of [r] at the start of [s], if there is one. *)
Definition match_end (r : regex) (s : text) : option nat :=
  rest ← rmatch r Some s; Some (length s - length rest).

(** [re.findall(r, s)] for a pattern without capturing groups: the
    matches from left to right, each search starting where the previous
    match ended, one character further after an empty match or when
    nothing matches at the position. *)
Equations? findall (r : regex) (s : text) : list text by wf (length s) lt :=
  findall r [] := match match_end r [] with Some _ => [[]] | None => [] end;
  findall r (c :: s') with match_end r (c :: s') := {
    | Some n := take n (c :: s') :: findall r (drop (Nat.max n 1 - 1) s');
    | None := findall r s' }.
Proof. all: simpl; try rewrite length_drop; lia. Qed.

(** [[+-]?\d+(?:\.\d+)?] *)
Definition number_pattern : regex :=
  Seq (Opt (Class is_sign))
      (Seq (Plus is_digit) (Opt (Seq (Class is_dot) (Plus is_digit)))).

(** What the matcher finds at the start of a text, said directly: the
    token and the text after it.  [span p s] cuts [s] after its longest
    prefix of characters of [p]. *)
Fixpoint span (p : char → bool) (s : text) : text * text :=
  match s with
  | c :: s' =>
      if p c then let '(a, b) := span p s' in (c :: a, b) else ([], s)
  | [] => ([], [])
  end.

Definition lex_number (s : text) : option (text * text) :=
  let '(sg, s1) :=
    match s with
    | c :: s' => if is_sign c then ([c], s') else ([], s)
    | [] => ([], [])
    end in
  let '(ds, s2) := span is_digit s1 in
  match ds with
  | [] => None
  | _ :: _ =>
      match s2 with
      | c :: s3 =>
          let '(fs, s4) := span is_digit s3 in
          match fs with
          | _ :: _ => if is_dot c then Some (sg ++ ds ++ c :: fs, s4)
                      else Some (sg ++ ds, s2)
          | [] => Some (sg ++ ds, s2)
          end
      | [] => Some (sg ++ ds, s2)
      end
  end.

(** The two lines of [read_numbers] after the file is read; [None] is a
    [ValueError] of [int] or [float]. *)
Definition numbers_of_text (s : text) : option (list pynum) :=
  mapM parse_token (findall number_pattern s).

(** The line that [main] prints and writes for the text of a file. *)
Definition output_line (s : text) : option string :=
  nums ← numbers_of_text s;
  sorted ← bubble_sort py_gt nums;
  out ← mapM render sorted;
  Some (String.concat " " out).

(** What the pattern describes, said without a matcher: an optional
    sign, one or more digits, and optionally a point followed by one or
    more digits. *)
Definition sign_part (sg : text) : Prop :=
  sg = [] ∨ sg = [char_plus] ∨ sg = [char_minus].

Definition all_digits (ds : text) : Prop :=
  ds ≠ [] ∧ Forall (λ c, is_digit c = true) ds.

Definition fraction_part (fr : text) : Prop :=
  fr = [] ∨ ∃ fs, fr = char_dot :: fs ∧ all_digits fs.

Definition is_numeral (t : text) : Prop :=
  ∃ sg ds fr,
    t = sg ++ ds ++ fr ∧ sign_part sg ∧ all_digits ds ∧ fraction_part fr.

(** [scan s toks]: [s] is cut, from left to right, into the tokens
    [toks], in their order, and the stretches between them, which are
    skipped and hold no digit. *)
Definition no_digit (gap : text) : Prop := Forall (λ c, is_digit c = false) gap.

Inductive scan : text → list text → Prop :=
| scan_end gap : no_digit gap → scan gap []
| scan_token gap tok rest toks :
    no_digit gap → scan rest toks → scan (gap ++ tok ++ rest) (tok :: toks).

(** ** The driver *)

(** *** Paths

    A [pathlib.Path] on POSIX: a root and the components after it. *)
Record path := MkPath {
  path_root : string;
  path_parts : list string
}.

Definition slash : Ascii.ascii := Ascii.ascii_of_nat 47.
Definition dot : Ascii.ascii := Ascii.ascii_of_nat 46.

(** [s.split("/")] *)
Fixpoint split_slash (s : string) : list string :=
  match s with
  | EmptyString => [EmptyString]
  | String c r =>
      if Ascii.eqb c slash then EmptyString :: split_slash r
      else match split_slash r with
           | h :: t => String c h :: t
           | [] => [String c EmptyString]
           end
  end.

Fixpoint leading_slashes (s : string) : nat :=
  match s with
  | String c r => if Ascii.eqb c slash then S (leading_slashes r) else 0
  | EmptyString => 0
  end.

(** [Path(s)]: exactly two leading slashes are kept as a root of their
    own; empty components and ["."] are dropped. *)
Definition Path (s : string) : path :=
  MkPath (match leading_slashes s with 0 => "" | 2 => "//" | _ => "/" end)
         (filter (λ x, x ≠ "" ∧ x ≠ ".") (split_slash s)).

(** [str(p)] *)
Definition str_path (p : path) : string :=
  match path_root p, path_parts p with
  | EmptyString, [] => "."
  | r, ps => r +:+ String.concat "/" ps
  end.

(** [p.name] *)
Definition path_name (p : path) : string := List.last (path_parts p) "".

(** [name.rfind(".")], counted from [i]. *)
Fixpoint rfind_dot (i : nat) (s : string) : option nat :=
  match s with
  | EmptyString => None
  | String c r =>
      match rfind_dot (S i) r with
      | Some j => Some j
      | None => if Ascii.eqb c dot then Some i else None
      end
  end.

(** [p.suffix]: the final extension, with its point; none when the only
    point starts or ends the name. *)
Definition name_suffix (name : string) : string :=
  match rfind_dot 0 name with
  | Some i =>
      if (0 <? i) && (i <? String.length name - 1)
      then String.substring i (String.length name - i) name
      else ""
  | None => ""
  end.

Definition contains_slash (s : string) : bool :=
  existsb (Ascii.eqb slash) (String.list_ascii_of_string s).

(** [p.with_suffix(suffix)]; [None] is its [ValueError]. *)
Definition with_suffix (p : path) (suffix : string) : option path :=
  if contains_slash suffix then None
  else if (negb (String.eqb suffix "") && negb (String.prefix "." suffix))
          || String.eqb suffix "." then None
  else
    let name := path_name p in
    if String.eqb name "" then None
    else
      let old := name_suffix name in
      let name' :=
        if String.eqb old "" then name +:+ suffix
        else String.substring 0 (String.length name - String.length old) name
             +:+ suffix in
      Some (MkPath (path_root p) (removelast (path_parts p) ++ [name'])).

(** *** The world of a run *)

(** A file holds the text that [read_text(encoding="utf-8",
    errors="ignore")] returns for it: its bytes decoded, the ones that
    do not decode dropped. *)
Inductive node :=
| File (content : text)
| Directory.

Inductive fs_call :=
| CallIsFile (name : string)
| CallRead (name : string)
| CallWrite (name : string).

(** Files are known by their absolute resolved names; [calls] lists the
    accesses to the file system, latest last. *)
Record world := World {
  files : gmap string node;
  stdout : string;
  calls : list fs_call
}.

Inductive exn :=
| SystemExit (code : Z)
| ValueError
| IndexError
| OverflowError
| FileNotFoundError
| IsADirectoryError.

Inductive result (A : Type) :=
| Returns (a : A)
| Raises (e : exn).
Arguments Returns {A} a.
Arguments Raises {A} e.

(** A statement changes the world and returns or raises. *)
Definition io (A : Type) : Type := world → result A * world.

#[global] Instance io_ret : MRet io := λ A a w, (Returns a, w).

#[global] Instance io_bind : MBind io := λ A B f m w,
  match m w with
  | (Returns a, w') => f a w'
  | (Raises e, w') => (Raises e, w')
  end.

Definition raise {A} (e : exn) : io A := λ w, (Raises e, w).

(** An operation that cannot touch the world and fails with [e]. *)
Definition lift {A} (e : exn) (o : option A) : io A :=
  match o with
  | Some a => mret a
  | None => raise e
  end.

(** The exit status of the process: that of [sys.exit], 0 when [main]
    returns, 1 after any other exception. *)
Definition exit_status {A} (r : result A) : Z :=
  match r with
  | Returns _ => 0
  | Raises (SystemExit c) => c
  | Raises _ => 1
  end.

Definition newline : string := String (Ascii.ascii_of_nat 10) EmptyString.

Definition print (s : string) : io unit := λ w,
  (Returns (), World (files w) (stdout w +:+ s +:+ newline) (calls w)).

Definition sys_exit {A} (code : Z) : io A := raise (SystemExit code).

Section Driver.

(** [p.resolve()], as text: the absolute name that the operating system
    gives the path (working directory, links, [..]). *)
Variable resolve : path → string.

Definition logged (w : world) (c : fs_call) : world :=
  World (files w) (stdout w) (calls w ++ [c]).

(** [p.is_file()] *)
Definition is_file (p : path) : io bool := λ w,
  (Returns (match files w !! resolve p with
            | Some (File _) => true
            | _ => false
            end),
   logged w (CallIsFile (resolve p))).

(** [p.read_text(encoding="utf-8", errors="ignore")] *)
Definition read_text (p : path) : io text := λ w,
  (match files w !! resolve p with
   | Some (File content) => Returns content
   | Some Directory => Raises IsADirectoryError
   | None => Raises FileNotFoundError
   end,
   logged w (CallRead (resolve p))).

(** [p.write_text(s, encoding="utf-8")]: the file is created or
    replaced; a directory of that name is an error. *)
Definition write_text (p : path) (s : string) : io unit := λ w,
  match files w !! resolve p with
  | Some Directory =>
      (Raises IsADirectoryError, logged w (CallWrite (resolve p)))
  | _ =>
      (Returns (),
       World (<[resolve p := File (text_of_string s)]> (files w))
             (stdout w) (calls w ++ [CallWrite (resolve p)]))
  end.

Definition read_numbers (p : path) : io (list pynum) :=
  s ← read_text p;
  lift ValueError (numbers_of_text s).

(** [Path(sys.argv[1]) if len(sys.argv) > 1 else default_path] *)
Definition input_path (argv : list string) : path :=
  match argv with
  | _ :: a :: _ => Path a
  | _ => Path "numbers.txt"
  end.

(** [bubble_sort(nums)] sorts in place and returns its argument: after
    the call [nums] is the list that the function returns. *)
Definition main (argv : list string) : io unit :=
  let p := input_path argv in
  found ← is_file p;
  (if negb found then
     print ("Input file not found: " +:+ resolve p);; sys_exit 1
   else mret ());;
  nums ← read_numbers p;
  (if bool_decide (nums = []) then
     print "No numbers found in the file.";; sys_exit 0
   else mret ());;
  nums ← lift IndexError (bubble_sort py_gt nums);
  print "Sorted numbers:";;
  out ← lift OverflowError (mapM render nums);
  print (String.concat " " out);;
  out_path ← lift ValueError (with_suffix p ".sorted.txt");
  write_text out_path (String.concat " " out);;
  print ("Written to: " +:+ resolve out_path).

End Driver.

(** A [resolve] for a system without links: a relative path is taken
    from the working directory [cwd]. *)
Definition resolve_from (cwd : string) (p : path) : string :=
  match path_root p with
  | EmptyString => cwd +:+ "/" +:+ String.concat "/" (path_parts p)
  | _ => str_path p
  end.

(** ** More for the statements about extraction *)

(** The characters that can only separate numbers: no digit, no sign, no
    point.  Spaces, commas and newlines are of them. *)
Definition separator (c : char) : Prop :=
  is_digit c = false ∧ is_sign c = false ∧ is_dot c = false.

(** [sep.join(ts)] *)
Fixpoint join_text (sep : text) (ts : list text) : text :=
  match ts with
  | [] => []
  | t :: ts' =>
      match ts' with
      | [] => t
      | _ :: _ => t ++ sep ++ join_text sep ts'
      end
  end.

Definition starts_with_digit (s : text) : Prop :=
  ∃ c r, s = c :: r ∧ is_digit c = true.

Definition ends_with_sign (s : text) : Prop :=
  ∃ g c, s = g ++ [c] ∧ is_sign c = true.

Definition starts_fraction (s : text) : Prop :=
  ∃ c r, s = char_dot :: c :: r ∧ is_digit c = true.

(** [tokenized s toks]: the cut of [s] into the numerals [toks] and the
    stretches between them in which every numeral is as long as it can
    be: no digit is left out, a sign before a digit belongs to the
    numeral, and a numeral stops neither before a digit nor before a
    fraction that it could take. *)
Inductive tokenized : text → list text → Prop :=
| tokenized_end gap : no_digit gap → tokenized gap []
| tokenized_token gap tok rest toks :
    no_digit gap →
    is_numeral tok →
    ¬ (ends_with_sign gap ∧ starts_with_digit tok) →
    ¬ starts_with_digit rest →
    ¬ (contains_dot tok = false ∧ starts_fraction rest) →
    tokenized rest toks →
    tokenized (gap ++ tok ++ rest) (tok :: toks).

(** * Properties of the sorter *)

Local Open Scope nat_scope.

Section BubbleSortFacts.

Context {A : Type} (gt : A → A → bool).

Lemma bubble_length x l : length (bubble gt x l).1.1 = S (length l).
Proof.
  revert x; induction l as [|y l IH]; intros x; simpl; [done|].
  destruct (gt x y).
  - specialize (IH x). destruct (bubble gt x l) as [[r s] k]. simpl in *. lia.
  - specialize (IH y). destruct (bubble gt y l) as [[r s] k]. simpl in *. lia.
Qed.

Lemma bubble_perm x l : (bubble gt x l).1.1 ≡ₚ x :: l.
Proof.
  revert x; induction l as [|y l IH]; intros x; simpl; [done|].
  destruct (gt x y).
  - specialize (IH x). destruct (bubble gt x l) as [[r s] k]. simpl in *.
    rewrite IH. apply Permutation_swap.
  - specialize (IH y). destruct (bubble gt y l) as [[r s] k]. simpl in *.
    by rewrite IH.
Qed.

(** The flag is raised exactly when an exchange was made. *)
Lemma bubble_flag x l :
  (bubble gt x l).1.2 = false ↔ (bubble gt x l).2 = 0.
Proof.
  revert x; induction l as [|y l IH]; intros x; simpl; [done|].
  destruct (gt x y).
  - destruct (bubble gt x l) as [[r s] k]. simpl. split; [done|lia].
  - specialize (IH y). by destruct (bubble gt y l) as [[r s] k].
Qed.

(** A pass without exchange leaves the list as it was, and found every
    adjacent pair in order. *)
Lemma bubble_quiet x l :
  (bubble gt x l).1.2 = false →
  (bubble gt x l).1.1 = x :: l ∧ Sorted (not_gt gt) (x :: l).
Proof.
  revert x; induction l as [|y l IH]; intros x; simpl.
  - intros _. split; [done|]. by repeat constructor.
  - destruct (gt x y) eqn:Hxy.
    + by destruct (bubble gt x l) as [[r s] k].
    + specialize (IH y). destruct (bubble gt y l) as [[r s] k]. simpl in *.
      intros Hs. destruct (IH Hs) as [-> Hsorted].
      split; [done|]. constructor; [done|]. by constructor.
Qed.

(** And conversely: on a list whose adjacent pairs are in order a pass
    makes no exchange. *)
Lemma bubble_sorted x l :
  Sorted (not_gt gt) (x :: l) → bubble gt x l = (x :: l, false, 0).
Proof.
  revert x; induction l as [|y l IH]; intros x Hs; simpl; [done|].
  apply Sorted_inv in Hs as [Hs Hhd]. apply HdRel_inv in Hhd.
  unfold not_gt in Hhd. rewrite Hhd. by rewrite (IH y Hs).
Qed.

(** A pass never exchanges two elements of a class [P] that [>] does
    not separate, so it keeps the elements of [P] in their order. *)
Lemma bubble_filter (P : A → Prop) `{!∀ a, Decision (P a)} x l :
  (∀ a b, P a → P b → gt a b = false) →
  filter P (bubble gt x l).1.1 = filter P (x :: l).
Proof.
  intros HP. revert x; induction l as [|y l IH]; intros x; simpl; [done|].
  destruct (gt x y) eqn:Hxy.
  - specialize (IH x). destruct (bubble gt x l) as [[r s] k]. simpl in *.
    rewrite !filter_cons in *.
    destruct (decide (P y)) as [Hy|Hy], (decide (P x)) as [Hx|Hx];
      try (by rewrite IH).
    rewrite (HP x y Hx Hy) in Hxy. done.
  - specialize (IH y). destruct (bubble gt y l) as [[r s] k]. simpl in *.
    rewrite (filter_cons _ x r), (filter_cons _ x (y :: l)).
    by rewrite IH.
Qed.

(** The body of the inner loop at the index of [x] in
    [pre ++ x :: y :: rest]: both subscripts are in range, and the two
    stores exchange [x] and [y]. *)
Lemma inner_body_middle pre x y rest sw c k :
  inner_body gt (length pre) (PassState (pre ++ x :: y :: rest) sw c k) =
  Some (if gt x y
        then PassState (pre ++ y :: x :: rest) true (S c) (S k)
        else PassState (pre ++ x :: y :: rest) sw (S c) k).
Proof.
  unfold inner_body. cbn [ps_arr ps_swapped ps_comparisons ps_swaps].
  rewrite (list_lookup_middle pre (y :: rest) x (length pre)) by done.
  cbn [mbind option_bind].
  assert (Hy : (pre ++ x :: y :: rest) !! (length pre + 1) = Some y).
  { rewrite lookup_app_r by lia.
    by replace (length pre + 1 - length pre) with 1 by lia. }
  rewrite Hy. cbn [mbind option_bind].
  destruct (gt x y); [|done].
  do 2 f_equal.
  rewrite <- (Nat.add_0_r (length pre)) at 2.
  rewrite insert_app_r. cbn [insert list_insert].
  rewrite insert_app_r. done.
Qed.

(** The inner loop over [pre ++ x :: l ++ suf], from index [length pre]
    on, is a pass over [x :: l]. *)
Lemma inner_loop_bubble l pre x suf sw c k :
  inner_loop gt (seq (length pre) (length l))
             (PassState (pre ++ x :: l ++ suf) sw c k) =
  Some (PassState (pre ++ (bubble gt x l).1.1 ++ suf)
                  (sw || (bubble gt x l).1.2)
                  (c + length l) (k + (bubble gt x l).2)).
Proof.
  revert pre x sw c k; induction l as [|y l IH]; intros pre x sw c k.
  - simpl. by rewrite orb_false_r, !Nat.add_0_r.
  - cbn [length seq inner_loop app].
    rewrite inner_body_middle. cbn [mbind option_bind bubble].
    destruct (gt x y) eqn:Hxy.
    + specialize (IH (pre ++ [y]) x true (S c) (S k)).
      rewrite length_app, <- app_assoc in IH. cbn [length app] in IH.
      rewrite Nat.add_1_r in IH. rewrite IH.
      destruct (bubble gt x l) as [[r s] n]. cbn [fst snd].
      rewrite <- !app_assoc. cbn [app]. rewrite orb_true_r.
      do 2 f_equal; lia.
    + specialize (IH (pre ++ [x]) y sw (S c) k).
      rewrite length_app, <- app_assoc in IH. cbn [length app] in IH.
      rewrite Nat.add_1_r in IH. rewrite IH.
      destruct (bubble gt y l) as [[r s] n]. cbn [fst snd].
      rewrite <- !app_assoc. cbn [app].
      do 2 f_equal; lia.
Qed.

(** One turn of the outer loop, at index [i], on a list of
    [i + S (length l)] elements. *)
Lemma outer_loop_step idxs i x l suf s :
  length suf = i →
  outer_loop gt (i :: idxs) (i + S (length l)) (x :: l ++ suf) s =
  let s' := SortStats (pass_comparisons s ++ [length l])
                      (total_swaps s + (bubble gt x l).2) in
  if (bubble gt x l).1.2
  then outer_loop gt idxs (i + S (length l)) ((bubble gt x l).1.1 ++ suf) s'
  else Some ((bubble gt x l).1.1 ++ suf, s').
Proof.
  intros Hi. cbn [outer_loop].
  replace (i + S (length l) - i - 1) with (length l) by lia.
  pose proof (inner_loop_bubble l [] x suf false 0 0) as H.
  cbn [length app] in H. rewrite H. cbn [mbind option_bind].
  cbn [ps_swapped ps_arr orb]. unfold record_pass.
  cbn [ps_comparisons ps_swaps Nat.add].
  by destruct ((bubble gt x l).1.2).
Qed.

Lemma snoc_of_length (r : list A) n :
  length r = S n → ∃ r' y, r = r' ++ [y] ∧ length r' = n.
Proof.
  destruct r as [|z r _] using rev_ind; [done|].
  rewrite length_app. cbn [length]. intros Hlen.
  exists r, z. split; [done|lia].
Qed.

(** The outer loop follows [passes]; in particular it returns. *)
Lemma outer_loop_passes pre suf s :
  ∃ out s',
    outer_loop gt (seq (length suf) (length pre)) (length suf + length pre)
               (pre ++ suf) s = Some (out, s') ∧
    passes gt pre suf s out s'.
Proof.
  remember (length pre) as m eqn:Hm.
  revert pre suf s Hm; induction m as [|m IH]; intros pre suf s Hm.
  - destruct pre; [|done]. exists suf, s. split; [done|constructor].
  - destruct pre as [|x l]; [done|]. injection Hm as ->.
    cbn [seq app]. rewrite outer_loop_step by done.
    destruct ((bubble gt x l).1.2) eqn:Hflag.
    + destruct (snoc_of_length _ _ (bubble_length x l)) as (r & y & Hr & Hl).
      destruct (IH r (y :: suf)
                   (SortStats (pass_comparisons s ++ [length l])
                              (total_swaps s + (bubble gt x l).2))
                   (eq_sym Hl))
        as (out & s' & Hrun & Hp).
      exists out, s'. split.
      * rewrite Hr, <- app_assoc. cbn [app length] in *.
        by replace (length suf + S (length l))
          with (S (length suf + length l)) by lia.
      * by eapply passes_next.
    + eexists _, _. split; [done|]. by apply passes_break.
Qed.

Lemma bubble_sort_run_passes arr :
  ∃ out s, bubble_sort_run gt arr = Some (out, s) ∧
           passes gt arr [] (no_stats) out s.
Proof.
  destruct (outer_loop_passes arr [] no_stats) as (out & s & Hrun & Hp).
  exists out, s. split; [|done].
  unfold bubble_sort_run. cbn [length Nat.add] in Hrun.
  by rewrite app_nil_r in Hrun.
Qed.

(** *** What the passes keep *)

Lemma passes_perm pre suf s out s' :
  passes gt pre suf s out s' → out ≡ₚ pre ++ suf.
Proof.
  induction 1 as [suf s|x l suf s Hflag|x l suf s r y out s' Hflag Hr _ IH].
  - done.
  - by rewrite bubble_perm.
  - rewrite IH. rewrite <- (bubble_perm x l), Hr.
    by rewrite <- app_assoc.
Qed.

Lemma passes_filter (P : A → Prop) `{!∀ a, Decision (P a)} pre suf s out s' :
  (∀ a b, P a → P b → gt a b = false) →
  passes gt pre suf s out s' → filter P out = filter P (pre ++ suf).
Proof.
  intros HP.
  induction 1 as [suf s|x l suf s Hflag|x l suf s r y out s' Hflag Hr _ IH].
  - done.
  - by rewrite !filter_app, bubble_filter.
  - rewrite IH. rewrite (filter_app _ (x :: l)), <- (bubble_filter P x l HP), Hr.
    by rewrite <- filter_app, <- app_assoc.
Qed.

(** *** What the passes cost *)

Lemma passes_stats pre suf s out s' :
  passes gt pre suf s out s' →
  ∃ extra,
    pass_comparisons s' = pass_comparisons s ++ extra ∧
    length extra ≤ length pre ∧
    Forall (λ c, c ≤ length pre - 1) extra.
Proof.
  induction 1 as [suf s|x l suf s Hflag|x l suf s r y out s' Hflag Hr _ IH].
  - exists []. by rewrite app_nil_r.
  - exists [length l]. cbn [pass_comparisons length].
    split_and!; [done|lia|]. constructor; [lia|done].
  - destruct IH as (extra & Hs' & Hlen & Hall).
    cbn [pass_comparisons] in Hs'.
    pose proof (bubble_length x l) as Hl. rewrite Hr, length_app in Hl.
    cbn [length] in Hl.
    exists (length l :: extra). split_and!.
    + by rewrite Hs', <- app_assoc.
    + cbn [length]. lia.
    + constructor; [cbn [length]; lia|].
      eapply Forall_impl; [done|]. intros c Hc. cbn [length] in *. lia.
Qed.

(** The passes are a function of the list. *)
Lemma passes_deterministic pre suf s out1 s1 out2 s2 :
  passes gt pre suf s out1 s1 → passes gt pre suf s out2 s2 →
  out1 = out2 ∧ s1 = s2.
Proof.
  intros H1. revert out2 s2.
  induction H1 as [suf s|x l suf s Hflag|x l suf s r y out s' Hflag Hr _ IH];
    intros out2 s2 H2; inv H2; try done; try congruence.
  match goal with
  | Hr' : (bubble gt x l).1.1 = _ ++ [_] |- _ =>
      rewrite Hr in Hr'; apply app_inj_tail in Hr' as [-> ->]
  end.
  by apply IH.
Qed.

(** A pass on a sorted list changes nothing: the loop breaks after the
    first pass. *)
Lemma passes_sorted_input x l s :
  Sorted (not_gt gt) (x :: l) →
  passes gt (x :: l) [] s (x :: l)
         (SortStats (pass_comparisons s ++ [length l]) (total_swaps s)).
Proof.
  intros Hs. pose proof (bubble_sorted x l Hs) as Hb.
  pose proof (passes_break gt x l [] s) as Hp.
  rewrite Hb in Hp. cbn [fst snd] in Hp.
  rewrite app_nil_r, Nat.add_0_r in Hp. by apply Hp.
Qed.

(** *** Order

    The elements that [>] orders: on them it is asymmetric and its
    negation is transitive. *)
Section Ordered.

Variable ok : A → Prop.
Hypothesis gt_asym : ∀ a b, ok a → ok b → gt a b = true → gt b a = false.
Hypothesis not_gt_trans :
  ∀ a b c, ok a → ok b → ok c → not_gt gt a b → not_gt gt b c → not_gt gt a c.

Lemma not_gt_refl a : ok a → not_gt gt a a.
Proof.
  intros Ha. unfold not_gt. destruct (gt a a) eqn:E; [|done].
  by rewrite (gt_asym a a Ha Ha E) in E.
Qed.

Lemma Sorted_StronglySorted_ok l :
  Forall ok l → Sorted (not_gt gt) l → StronglySorted (not_gt gt) l.
Proof.
  induction l as [|x l IH]; intros Hok Hs; [constructor|].
  apply Forall_cons in Hok as [Hx Hok].
  apply Sorted_inv in Hs as [Hs Hhd].
  specialize (IH Hok Hs). constructor; [done|].
  destruct l as [|y l]; [done|].
  apply HdRel_inv in Hhd. apply StronglySorted_inv in IH as [_ Hy].
  apply Forall_cons in Hok as [Hy' Hok].
  constructor; [done|].
  apply Forall_forall. intros z Hz.
  eapply (not_gt_trans x y z); try done.
  - by eapply Forall_forall in Hok.
  - by eapply Forall_forall in Hy.
Qed.

(** A pass leaves the largest element last. *)
Lemma bubble_last_max x l r y :
  Forall ok (x :: l) → (bubble gt x l).1.1 = r ++ [y] →
  Forall (λ a, not_gt gt a y) (x :: l).
Proof.
  revert x r; induction l as [|z l IH]; intros x r Hok Hr.
  - cbn in Hr. destruct r as [|? [|? ?]]; simplify_eq/=.
    apply Forall_cons in Hok as [Hx _].
    constructor; [by apply not_gt_refl|done].
  - assert (Hy : ok y).
    { eapply Forall_forall; [exact Hok|].
      rewrite <- (bubble_perm x (z :: l)), Hr. set_solver. }
    apply Forall_cons in Hok as [Hx Hok].
    apply Forall_cons in Hok as [Hz Hok].
    cbn [bubble] in Hr. destruct (gt x z) eqn:Hxz.
    + pose proof (bubble_length x l) as Hlen.
      destruct (bubble gt x l) as [[r0 s0] k0] eqn:Hb. cbn [fst snd] in *.
      destruct r as [|z' r]; simplify_eq/=.
      assert (IH' : Forall (λ a, not_gt gt a y) (x :: l))
        by (eapply IH; [by constructor|by rewrite Hb]).
      apply Forall_cons in IH' as [Hxy Hl].
      constructor; [done|]. constructor; [|done].
      eapply (not_gt_trans z' x y); try done. by apply gt_asym.
    + pose proof (bubble_length z l) as Hlen.
      destruct (bubble gt z l) as [[r0 s0] k0] eqn:Hb. cbn [fst snd] in *.
      destruct r as [|x' r]; simplify_eq/=.
      assert (IH' : Forall (λ a, not_gt gt a y) (z :: l))
        by (eapply IH; [by constructor|by rewrite Hb]).
      constructor; [|done].
      apply Forall_cons in IH' as [Hzy Hl].
      by eapply (not_gt_trans x' z y).
Qed.

(** The settled places hold, in order, elements that no element of
    the prefix exceeds: what the passes keep until the list is
    sorted. *)
Lemma passes_sorted pre suf s out s' :
  passes gt pre suf s out s' →
  Forall ok (pre ++ suf) →
  StronglySorted (not_gt gt) suf →
  (∀ a b, a ∈ pre → b ∈ suf → not_gt gt a b) →
  StronglySorted (not_gt gt) out.
Proof.
  induction 1 as [suf s|x l suf s Hflag|x l suf s r y out s' Hflag Hr _ IH];
    intros Hok Hsuf Hcross.
  - done.
  - destruct (bubble_quiet x l Hflag) as [-> Hs].
    apply Forall_app in Hok as [Hpre _].
    apply StronglySorted_app_2; [done| |done].
    by apply Sorted_StronglySorted_ok.
  - assert (Hperm : r ++ [y] ≡ₚ x :: l) by (rewrite <- Hr; apply bubble_perm).
    assert (Hmax : Forall (λ a, not_gt gt a y) (x :: l)).
    { eapply bubble_last_max; [|done]. by apply Forall_app in Hok as [? _]. }
    rewrite <- Hperm in Hmax.
    apply IH.
    + replace (r ++ y :: suf) with ((r ++ [y]) ++ suf)
        by (by rewrite <- app_assoc).
      by rewrite Hperm.
    + constructor; [done|]. apply Forall_forall. intros b Hb.
      apply Hcross; [|done]. rewrite <- Hperm. set_solver.
    + intros a b Ha Hb. apply elem_of_cons in Hb as [->|Hb].
      * eapply Forall_forall in Hmax; [done|]. set_solver.
      * apply Hcross; [|done]. rewrite <- Hperm. set_solver.
Qed.

End Ordered.

End BubbleSortFacts.

(** *** Elements that carry more than their key

    Sorting records by a key is sorting the keys: a run over [f <$> arr]
    under [gt'] is the image of the run over [arr] under [gt] when [f]
    carries the one test to the other. *)
Section BubbleSortMap.

Context {A B : Type} (f : A → B) (gt : A → A → bool) (gt' : B → B → bool).
Hypothesis gt_f : ∀ a b, gt' (f a) (f b) = gt a b.

Lemma bubble_fmap x l :
  bubble gt' (f x) (f <$> l) =
  (f <$> (bubble gt x l).1.1, (bubble gt x l).1.2, (bubble gt x l).2).
Proof.
  revert x; induction l as [|y l IH]; intros x; [done|].
  cbn [fmap list_fmap bubble]. rewrite gt_f.
  destruct (gt x y).
  - rewrite (IH x). by destruct (bubble gt x l) as [[r s] k].
  - rewrite (IH y). by destruct (bubble gt y l) as [[r s] k].
Qed.

Lemma passes_fmap pre suf s out s' :
  passes gt pre suf s out s' →
  passes gt' (f <$> pre) (f <$> suf) s (f <$> out) s'.
Proof.
  induction 1 as [suf s|x l suf s Hflag|x l suf s r y out s' Hflag Hr _ IH].
  - constructor.
  - pose proof (passes_break gt' (f x) (f <$> l) (f <$> suf) s) as Hp.
    rewrite bubble_fmap in Hp. cbn [fst snd] in Hp.
    rewrite length_fmap, <- fmap_app in Hp. rewrite fmap_cons. by apply Hp.
  - rewrite fmap_cons.
    eapply (passes_next gt' (f x) (f <$> l) (f <$> suf) s (f <$> r) (f y)).
    + by rewrite bubble_fmap.
    + rewrite bubble_fmap. cbn [fst]. by rewrite Hr, fmap_app.
    + rewrite bubble_fmap. cbn [snd]. by rewrite length_fmap.
Qed.

Lemma bubble_sort_fmap arr out :
  bubble_sort gt arr = Some out →
  bubble_sort gt' (f <$> arr) = Some (f <$> out).
Proof.
  unfold bubble_sort. intros Hrun.
  destruct (bubble_sort_run_passes gt arr) as (out1 & s1 & Hrun1 & Hp1).
  rewrite Hrun1 in Hrun. injection Hrun as <-.
  destruct (bubble_sort_run_passes gt' (f <$> arr)) as (out2 & s2 & Hrun2 & Hp2).
  rewrite Hrun2. cbn.
  apply passes_fmap in Hp1. cbn [fmap list_fmap] in Hp1.
  by destruct (passes_deterministic _ _ _ _ _ _ _ _ Hp1 Hp2) as [-> _].
Qed.

End BubbleSortMap.

(** * Properties of the order of numbers *)

Local Open Scope Z_scope.

Lemma scale_pos : 0 < scale.
Proof. by apply Z.pow_pos_nonneg. Qed.

Lemma xval_ltb_asym a b : xval_ltb a b = true → xval_ltb b a = false.
Proof. destruct a, b; cbn; try done. intros ?%Z.ltb_lt. by apply Z.ltb_ge; lia. Qed.

Lemma xval_not_ltb_trans a b c :
  xval_ltb b a = false → xval_ltb c b = false → xval_ltb c a = false.
Proof.
  destruct a, b, c; cbn; try done.
  intros ?%Z.ltb_ge ?%Z.ltb_ge. apply Z.ltb_ge. lia.
Qed.

Lemma py_gt_asym a b : py_gt a b = true → py_gt b a = false.
Proof.
  unfold py_gt. destruct (num_key a) as [ka|], (num_key b) as [kb|]; try done.
  apply xval_ltb_asym.
Qed.

Lemma py_not_gt_trans a b c :
  is_number b → py_gt a b = false → py_gt b c = false → py_gt a c = false.
Proof.
  unfold py_gt. intros [kb Hb]. rewrite Hb.
  destruct (num_key a) as [ka|], (num_key c) as [kc|]; try done.
  intros H1 H2. by eapply xval_not_ltb_trans.
Qed.

(** On numbers, [a <= b] is the failure of [a > b]. *)
Lemma py_le_not_gt a b :
  is_number a → is_number b → py_le a b = true ↔ py_gt a b = false.
Proof.
  unfold py_le, py_gt. intros [ka ->] [kb ->].
  by destruct (xval_ltb kb ka).
Qed.

Lemma py_le_gt a b : py_le a b = true → py_gt a b = false.
Proof.
  unfold py_le, py_gt.
  destruct (num_key a) as [ka|], (num_key b) as [kb|]; try done.
  by destruct (xval_ltb kb ka).
Qed.

(** Equal numbers are not separated by [>]. *)
Lemma py_eq_not_gt v a b :
  py_eq v a = true → py_eq v b = true → py_gt a b = false.
Proof.
  unfold py_eq, py_gt.
  destruct (num_key v) as [kv|], (num_key a) as [ka|], (num_key b) as [kb|];
    try done.
  destruct kv, ka, kb; cbn; try done.
  intros ?%Z.eqb_eq ?%Z.eqb_eq. apply Z.ltb_ge. lia.
Qed.

Lemma StronglySorted_on {A} (R R' : A → A → Prop) (P : A → Prop) l :
  (∀ a b, P a → P b → R a b → R' a b) →
  Forall P l → StronglySorted R l → StronglySorted R' l.
Proof.
  intros HR. induction l as [|x l IH]; intros HP Hs; [constructor|].
  apply Forall_cons in HP as [Hx HP].
  apply StronglySorted_inv in Hs as [Hs Hall].
  constructor; [by apply IH|].
  rewrite Forall_forall in *. intros y Hy. apply HR; auto.
Qed.

Local Open Scope nat_scope.

(** A subscript fails exactly when it is out of range. *)
Lemma inner_body_None {A} (gt : A → A → bool) j st :
  inner_body gt j st = None ↔ length (ps_arr st) ≤ j + 1.
Proof.
  unfold inner_body. split.
  - destruct (ps_arr st !! j) as [a|] eqn:Ha; cbn [mbind option_bind].
    + destruct (ps_arr st !! (j + 1)) as [b|] eqn:Hb; cbn [mbind option_bind].
      * by destruct (gt a b).
      * intros _. by apply lookup_ge_None.
    + intros _. apply lookup_ge_None in Ha. lia.
  - intros Hlen.
    assert (Hb : ps_arr st !! (j + 1) = None) by (by apply lookup_ge_None).
    rewrite Hb. by destruct (ps_arr st !! j).
Qed.

(** * The claims about the sorter *)

(** Sorting numbers: the result is a permutation of the input, in
    non-decreasing order. *)
Lemma bubble_sort_numbers (arr : list pynum) :
  Forall is_number arr →
  ∃ out, bubble_sort py_gt arr = Some out ∧
         out ≡ₚ arr ∧
         StronglySorted (λ a b, py_le a b = true) out.
Proof.
  intros Hnum.
  destruct (bubble_sort_run_passes py_gt arr) as (out & s & Hrun & Hp).
  exists out. unfold bubble_sort. rewrite Hrun. split; [done|].
  assert (Hperm : out ≡ₚ arr).
  { rewrite (passes_perm _ _ _ _ _ _ Hp). by rewrite app_nil_r. }
  split; [done|].
  apply (StronglySorted_on (not_gt py_gt) _ is_number).
  - intros a b Ha Hb. by apply py_le_not_gt.
  - by rewrite Hperm.
  - eapply (passes_sorted py_gt is_number); [| |done| | |].
    + intros a b _ _. apply py_gt_asym.
    + intros a b c _ Hb _. by apply py_not_gt_trans.
    + by rewrite app_nil_r.
    + constructor.
    + intros a b _ Hb. by apply elem_of_nil in Hb.
Qed.

(** C1. For every list of numbers, [bubble_sort] returns a list that is
    a permutation of its input and is in non-decreasing order of the
    exact numeric values, whether they are [int] or [float]. *)
Theorem bubble_sort_sorts (arr : list pynum) :
  Forall is_number arr →
  ∃ out, bubble_sort py_gt arr = Some out ∧
         out ≡ₚ arr ∧
         StronglySorted (λ a b, py_le a b = true) out.
Proof. apply bubble_sort_numbers. Qed.

Lemma bubble_sort_sorts_witness :
  ∃ out, bubble_sort py_gt
           [PyInt 3; PyFloat (FFinite true 5); PyInt (-2); PyFloat (FInf false);
            PyFloat (FFinite false 0); PyInt 0] = Some out ∧
         out ≡ₚ [PyInt 3; PyFloat (FFinite true 5); PyInt (-2);
                 PyFloat (FInf false); PyFloat (FFinite false 0); PyInt 0] ∧
         StronglySorted (λ a b, py_le a b = true) out.
Proof.
  apply (bubble_sort_sorts
           [PyInt 3; PyFloat (FFinite true 5); PyInt (-2); PyFloat (FInf false);
            PyFloat (FFinite false 0); PyInt 0]).
  repeat constructor; by eexists.
Defined.

(** C3. The sort is stable.  Let the elements carry, besides their
    number, any mark that tells them apart; they are compared by their
    numbers alone.  Then the elements equal in number to any [v] stand
    in the result in the order in which they stood in the input, and
    the numbers of the result are the result of sorting the numbers. *)
Theorem bubble_sort_stable {T : Type} (arr : list (pynum * T)) (v : pynum) :
  ∃ out, bubble_sort (λ a b, py_gt a.1 b.1) arr = Some out ∧
         filter (λ a, py_eq v a.1 = true) out =
           filter (λ a, py_eq v a.1 = true) arr ∧
         bubble_sort py_gt arr.*1 = Some out.*1.
Proof.
  destruct (bubble_sort_run_passes (λ a b, py_gt a.1 b.1) arr)
    as (out & s & Hrun & Hp).
  assert (Hsort : bubble_sort (λ a b, py_gt a.1 b.1) arr = Some out)
    by (unfold bubble_sort; by rewrite Hrun).
  exists out. split; [done|]. split.
  - erewrite (passes_filter _ (λ a, py_eq v a.1 = true)); [|  |exact Hp].
    + by rewrite app_nil_r.
    + intros a b. apply py_eq_not_gt.
  - by apply (bubble_sort_fmap fst (λ a b, py_gt a.1 b.1) py_gt).
Qed.

(** C8. On a list that is already in non-decreasing order [bubble_sort]
    makes no exchange, stops after its first pass ([length arr - 1]
    comparisons; no pass at all on the empty list), and returns the
    list as it was. *)
Theorem bubble_sort_sorted_input (arr : list pynum) :
  Sorted (λ a b, py_le a b = true) arr →
  bubble_sort_run py_gt arr =
    Some (arr, SortStats (match arr with [] => [] | _ :: l => [length l] end) 0)
  ∧ bubble_sort py_gt arr = Some arr.
Proof.
  intros Hs.
  assert (Hrun : bubble_sort_run py_gt arr =
    Some (arr, SortStats (match arr with [] => [] | _ :: l => [length l] end) 0)).
  { destruct (bubble_sort_run_passes py_gt arr) as (out & s & Hrun & Hp).
    rewrite Hrun. destruct arr as [|x l].
    - by inv Hp.
    - assert (Hs' : Sorted (not_gt py_gt) (x :: l)).
      { clear -Hs. induction Hs as [|a l' Hs IH Hhd]; constructor; [done|].
        destruct Hhd; constructor. by apply py_le_gt. }
      pose proof (passes_sorted_input py_gt x l no_stats Hs') as Hp'.
      by destruct (passes_deterministic _ _ _ _ _ _ _ _ Hp Hp') as [-> ->]. }
  split; [done|]. unfold bubble_sort. by rewrite Hrun.
Qed.

Lemma bubble_sort_sorted_input_witness :
  bubble_sort_run py_gt [PyInt (-2); PyFloat (FFinite false 0); PyInt 0; PyInt 3] =
    Some ([PyInt (-2); PyFloat (FFinite false 0); PyInt 0; PyInt 3],
          SortStats [3] 0)
  ∧ bubble_sort py_gt [PyInt (-2); PyFloat (FFinite false 0); PyInt 0; PyInt 3] =
    Some [PyInt (-2); PyFloat (FFinite false 0); PyInt 0; PyInt 3].
Proof.
  apply (bubble_sort_sorted_input
           [PyInt (-2); PyFloat (FFinite false 0); PyInt 0; PyInt 3]).
  repeat constructor; by vm_compute.
Defined.

(** C9. [bubble_sort] returns on every list, the empty one included:
    no subscript is out of range (a subscript out of range, and nothing
    else, makes the body of the inner loop fail), there are at most
    [length arr] passes, and a pass makes at most [length arr - 1]
    comparisons. *)
Theorem bubble_sort_terminates {A : Type} (gt : A → A → bool) (arr : list A) :
  (∃ out s,
     bubble_sort_run gt arr = Some (out, s) ∧
     bubble_sort gt arr = Some out ∧
     length (pass_comparisons s) ≤ length arr ∧
     Forall (λ c, c ≤ length arr - 1) (pass_comparisons s)) ∧
  (∀ j st, inner_body gt j st = None ↔ length (ps_arr st) ≤ j + 1) ∧
  bubble_sort gt [] = Some [].
Proof.
  split_and!; [|apply inner_body_None|done].
  destruct (bubble_sort_run_passes gt arr) as (out & s & Hrun & Hp).
  exists out, s. unfold bubble_sort. rewrite Hrun.
  destruct (passes_stats _ _ _ _ _ _ Hp) as (extra & Hs & Hlen & Hall).
  cbn [no_stats pass_comparisons app] in Hs. rewrite Hs.
  by split_and!.
Qed.

Local Open Scope Z_scope.

(** * Properties of parsing and rendering *)

(** *** [str] of an [int] *)






(** *** Numerals are read *)

Lemma is_digit_Some c : is_digit c = true ↔ is_Some (decimal_value c).
Proof. unfold is_digit. apply bool_decide_eq_true. Qed.

Lemma is_digit_not_dot c : is_digit c = true → is_dot c = false.
Proof.
  intros Hc. destruct (is_dot c) eqn:Hd; [|done].
  apply N.eqb_eq in Hd as ->. by vm_compute in Hc.
Qed.

Lemma is_digit_not_sign c : is_digit c = true → is_sign c = false.
Proof.
  intros Hc. destruct (is_sign c) eqn:Hs; [|done].
  apply orb_true_iff in Hs as [->%N.eqb_eq| ->%N.eqb_eq]; by vm_compute in Hc.
Qed.

Lemma mapM_digits ds :
  Forall (λ c, is_digit c = true) ds →
  mapM decimal_value ds = Some (digit_values ds).
Proof.
  intros Hds. apply mapM_Some_2. unfold digit_values.
  induction Hds as [|c ds Hc _ IH]; [constructor|].
  cbn [fmap list_fmap]. constructor; [|done].
  apply is_digit_Some in Hc as [v ->]. done.
Qed.




Lemma split_sign_numeral sg d body :
  sign_part sg → is_digit d = true →
  split_sign (sg ++ d :: body) = (bool_decide (sg = [char_minus]), d :: body).
Proof.
  intros [->|[->| ->]] Hd; [|done..].
  apply is_digit_not_sign in Hd. unfold is_sign in Hd.
  apply orb_false_iff in Hd as [Hp Hm]. cbn. by rewrite Hm, Hp.
Qed.

Lemma split_dot_digits ds :
  Forall (λ c, is_digit c = true) ds → split_dot ds = (ds, None).
Proof.
  induction 1 as [|c ds Hc _ IH]; [done|]. cbn [split_dot].
  by rewrite (is_digit_not_dot c Hc), IH.
Qed.

Lemma split_dot_fraction ds fs :
  Forall (λ c, is_digit c = true) ds →
  split_dot (ds ++ char_dot :: fs) = (ds, Some fs).
Proof.
  induction 1 as [|c ds Hc _ IH]; [done|]. cbn [split_dot app].
  by rewrite (is_digit_not_dot c Hc), IH.
Qed.

Lemma contains_dot_digits ds :
  Forall (λ c, is_digit c = true) ds → contains_dot ds = false.
Proof.
  induction 1 as [|c ds Hc _ IH]; [done|]. cbn.
  by rewrite (is_digit_not_dot c Hc).
Qed.

Lemma contains_dot_sign sg s :
  sign_part sg → contains_dot (sg ++ s) = contains_dot s.
Proof. by intros [->|[->| ->]]. Qed.

Lemma contains_dot_app s1 s2 :
  contains_dot (s1 ++ s2) = contains_dot s1 || contains_dot s2.
Proof. apply existsb_app. Qed.

(** A numeral without a fraction is read by [int]. *)
Lemma parse_token_int sg ds :
  sign_part sg → all_digits ds →
  parse_token (sg ++ ds) =
    Some (PyInt (if bool_decide (sg = [char_minus])
                 then - digits_value (digit_values ds)
                 else digits_value (digit_values ds))).
Proof.
  intros Hsg [Hne Hds]. unfold parse_token.
  rewrite contains_dot_sign, contains_dot_digits by done.
  unfold py_int. destruct ds as [|d ds]; [done|].
  rewrite split_sign_numeral; [|done|by inv Hds].
  rewrite mapM_digits by done. cbn [mbind option_bind].
  by destruct (decide _).
Qed.

(** A numeral with a fraction is read by [float]. *)
Lemma parse_token_float sg ds fs :
  sign_part sg → all_digits ds → all_digits fs →
  parse_token (sg ++ ds ++ char_dot :: fs) =
    Some (PyFloat (float_of_ratio (bool_decide (sg = [char_minus]))
                     (digits_value (digit_values ds ++ digit_values fs))
                     (10 ^ Z.of_nat (length fs)))).
Proof.
  intros Hsg [Hne Hds] [Hfne Hfs]. unfold parse_token.
  rewrite contains_dot_sign, contains_dot_app by done.
  replace (contains_dot (char_dot :: fs)) with true by done.
  rewrite orb_true_r. unfold py_float.
  destruct ds as [|d ds]; [done|]. rewrite <- app_comm_cons.
  rewrite split_sign_numeral; [|done|by inv Hds].
  rewrite app_comm_cons, (split_dot_fraction (d :: ds)) by done.
  rewrite !mapM_digits by done. cbn [mbind option_bind default].
  destruct (decide _) as [Hnil|_]; [by destruct (app_eq_nil _ _ Hnil)|].
  unfold digit_values at 3. by rewrite length_fmap.
Qed.

(** *** Equal fractions round alike *)



Local Open Scope nat_scope.

(** * Properties of the extraction *)

Lemma span_app p s : (span p s).1 ++ (span p s).2 = s.
Proof.
  induction s as [|c s IH]; [done|]. cbn [span].
  destruct (p c); [|done]. destruct (span p s) as [a b]. cbn in *. by rewrite IH.
Qed.

Lemma span_all p s : Forall (λ c, p c = true) (span p s).1.
Proof.
  induction s as [|c s IH]; [constructor|]. cbn [span].
  destruct (p c) eqn:Hc; [|constructor].
  destruct (span p s) as [a b]. by constructor.
Qed.

(** One or more of a class, before a continuation that cannot fail:
    the longest run is taken. *)
Lemma plus_match_total p k s :
  (∀ x, is_Some (k x)) →
  plus_match p k s =
    match (span p s).1 with
    | [] => None
    | _ :: _ => k (span p s).2
    end.
Proof.
  intros Hk. induction s as [|c s IH]; [reflexivity|]. cbn [plus_match span].
  destruct (p c); [|reflexivity]. rewrite IH.
  pose proof (span_app p s) as Happ.
  destruct (span p s) as [[|d a] b]; cbn in *; [by subst|].
  by destruct (Hk b) as [x ->].
Qed.

Lemma is_sign_not_digit c : is_sign c = true → is_digit c = false.
Proof.
  unfold is_sign. intros [->%N.eqb_eq | ->%N.eqb_eq]%orb_true_iff; by vm_compute.
Qed.

Lemma is_sign_cases c : is_sign c = true → c = char_plus ∨ c = char_minus.
Proof. unfold is_sign. intros [?%N.eqb_eq | ?%N.eqb_eq]%orb_true_iff; auto. Qed.

Lemma is_dot_eq c : is_dot c = true → c = char_dot.
Proof. unfold is_dot. by intros ?%N.eqb_eq. Qed.

Lemma rmatch_seq r1 r2 k s : rmatch (Seq r1 r2) k s = rmatch r1 (rmatch r2 k) s.
Proof. reflexivity. Qed.

Lemma rmatch_opt r k s :
  rmatch (Opt r) k s = match rmatch r k s with Some x => Some x | None => k s end.
Proof. reflexivity. Qed.

Lemma rmatch_class p k s :
  rmatch (Class p) k s =
  match s with c :: s' => if p c then k s' else None | [] => None end.
Proof. reflexivity. Qed.

Lemma rmatch_plus p k s : rmatch (Plus p) k s = plus_match p k s.
Proof. reflexivity. Qed.

(** The fraction, which is optional, before the end of the pattern. *)
Lemma rmatch_fraction s2 :
  rmatch (Opt (Seq (Class is_dot) (Plus is_digit))) Some s2 =
  Some match s2 with
       | c :: s3 =>
           match (span is_digit s3).1 with
           | _ :: _ => if is_dot c then (span is_digit s3).2 else s2
           | [] => s2
           end
       | [] => s2
       end.
Proof.
  rewrite rmatch_opt, rmatch_seq, rmatch_class.
  destruct s2 as [|c s3]; [done|].
  destruct (is_dot c).
  - rewrite rmatch_plus, plus_match_total by eauto.
    by destruct (span is_digit s3).1.
  - by destruct (span is_digit s3).1.
Qed.

(** The digits and the fraction. *)
Lemma rmatch_unsigned s1 :
  rmatch (Seq (Plus is_digit) (Opt (Seq (Class is_dot) (Plus is_digit)))) Some s1 =
  match (span is_digit s1).1 with
  | [] => None
  | _ :: _ =>
      Some match (span is_digit s1).2 with
           | c :: s3 =>
               match (span is_digit s3).1 with
               | _ :: _ => if is_dot c then (span is_digit s3).2
                           else (span is_digit s1).2
               | [] => (span is_digit s1).2
               end
           | [] => (span is_digit s1).2
           end
  end.
Proof.
  rewrite rmatch_seq, rmatch_plus, plus_match_total.
  - destruct (span is_digit s1).1; [done|]. apply rmatch_fraction.
  - intros x. rewrite rmatch_fraction. eauto.
Qed.

Lemma span_not_head p c s : p c = false → span p (c :: s) = ([], c :: s).
Proof. intros H. cbn. by rewrite H. Qed.

(** The matcher on the pattern of [read_numbers] is [lex_number]. *)
Lemma rmatch_number_pattern s :
  rmatch number_pattern Some s = snd <$> lex_number s.
Proof.
  unfold number_pattern. rewrite rmatch_seq, rmatch_opt, rmatch_class.
  unfold lex_number.
  destruct s as [|c s'].
  - by rewrite rmatch_unsigned.
  - destruct (is_sign c) eqn:Hsign.
    + rewrite !rmatch_unsigned.
      rewrite (span_not_head is_digit c s') by (by apply is_sign_not_digit).
      cbn [fst snd].
      destruct (span is_digit s') as [[|d ds] s2]; cbn [fst snd]; [done|].
      destruct s2 as [|c2 s3]; [done|].
      destruct (span is_digit s3) as [[|e fs] s4]; cbn [fst snd]; [done|].
      by destruct (is_dot c2).
    + rewrite rmatch_unsigned.
      destruct (span is_digit (c :: s')) as [[|d ds] s2]; cbn [fst snd]; [done|].
      destruct s2 as [|c2 s3]; [done|].
      destruct (span is_digit s3) as [[|e fs] s4]; cbn [fst snd]; [done|].
      by destruct (is_dot c2).
Qed.

(** What [lex_number] finds is a numeral at the start of the text. *)
Lemma lex_number_spec s tok rest :
  lex_number s = Some (tok, rest) → s = tok ++ rest ∧ is_numeral tok.
Proof.
  unfold lex_number.
  set (sg_s1 := match s with
                | c :: s' => if is_sign c then ([c], s') else ([], s)
                | [] => ([], [])
                end).
  assert (Hsg : s = sg_s1.1 ++ sg_s1.2 ∧ sign_part sg_s1.1).
  { subst sg_s1. unfold sign_part. destruct s as [|c s']; [by auto|].
    destruct (is_sign c) eqn:Hc; [|by auto].
    split; [done|]. destruct (is_sign_cases c Hc) as [-> | ->]; auto. }
  destruct sg_s1 as [sg s1]. cbn [fst snd] in Hsg. destruct Hsg as [-> Hsg].
  pose proof (span_app is_digit s1) as Hds.
  pose proof (span_all is_digit s1) as Hdigits.
  destruct (span is_digit s1) as [ds s2]. cbn [fst snd] in *.
  destruct ds as [|d ds]; [done|].
  assert (Hint : is_numeral (sg ++ d :: ds)).
  { exists sg, (d :: ds), []. rewrite app_nil_r. split_and!; [done..|by split|by left]. }
  destruct s2 as [|c s3].
  { intros [= <- <-]. by rewrite <- Hds, !app_nil_r. }
  pose proof (span_app is_digit s3) as Hfs.
  pose proof (span_all is_digit s3) as Hfdigits.
  destruct (span is_digit s3) as [fs s4]. cbn [fst snd] in *.
  destruct fs as [|e fs].
  { intros [= <- <-]. by rewrite <- Hds, <- app_assoc. }
  destruct (is_dot c) eqn:Hdot.
  - intros [= <- <-]. split.
    + rewrite <- Hds, <- Hfs. cbn [app].
      by rewrite <- !app_assoc, <- !app_comm_cons, <- !app_assoc.
    + apply is_dot_eq in Hdot as ->.
      exists sg, (d :: ds), (char_dot :: e :: fs). split_and!; [done..|by split|].
      right. exists (e :: fs). by split.
  - intros [= <- <-]. by rewrite <- Hds, <- app_assoc.
Qed.

Lemma is_numeral_length t : is_numeral t → 0 < length t.
Proof.
  intros (sg & ds & fr & -> & _ & [Hne _] & _).
  rewrite !length_app. destruct ds; [done|]. cbn [length]. lia.
Qed.

Lemma match_end_number s :
  match_end number_pattern s = (λ tr, length tr.1) <$> lex_number s.
Proof.
  unfold match_end. rewrite rmatch_number_pattern.
  destruct (lex_number s) as [[tok rest]|] eqn:Hlex; [|done].
  apply lex_number_spec in Hlex as [-> _]. cbn.
  f_equal. rewrite length_app. lia.
Qed.

(** [findall], one match at a time. *)
Lemma findall_number_nil : findall number_pattern [] = [].
Proof. reflexivity. Qed.

Lemma findall_number_cons c s :
  findall number_pattern (c :: s) =
  match lex_number (c :: s) with
  | Some (tok, rest) => tok :: findall number_pattern rest
  | None => findall number_pattern s
  end.
Proof.
  simp findall. rewrite match_end_number.
  destruct (lex_number (c :: s)) as [[tok rest]|] eqn:Hlex; [|done].
  cbn. apply lex_number_spec in Hlex as [Hs Hnum].
  apply is_numeral_length in Hnum.
  destruct tok as [|c' tok]; [cbn in Hnum; lia|].
  injection Hs as <- ->. cbn [length].
  rewrite Nat.max_l by lia. cbn.
  by rewrite Nat.sub_0_r, take_app_length, drop_app_length.
Qed.

Lemma lex_number_shorter s tok rest :
  lex_number s = Some (tok, rest) → length rest < length s.
Proof.
  intros [-> Hnum%is_numeral_length]%lex_number_spec.
  rewrite length_app. lia.
Qed.

(** An induction that follows the matches. *)
Lemma findall_number_ind (P : text → list text → Prop) :
  P [] [] →
  (∀ c s tok rest toks,
     lex_number (c :: s) = Some (tok, rest) → is_numeral tok →
     c :: s = tok ++ rest → P rest toks → P (c :: s) (tok :: toks)) →
  (∀ c s toks, lex_number (c :: s) = None → P s toks → P (c :: s) toks) →
  ∀ s, P s (findall number_pattern s).
Proof.
  intros Hnil Hmatch Hskip s.
  induction s as [s IH] using (induction_ltof1 _ length). unfold ltof in IH.
  destruct s as [|c s]; [by rewrite findall_number_nil|].
  rewrite findall_number_cons.
  destruct (lex_number (c :: s)) as [[tok rest]|] eqn:Hlex.
  - destruct (lex_number_spec _ _ _ Hlex) as [Hs Hnum].
    apply (Hmatch c s tok rest); [done..|]. apply IH. by eapply lex_number_shorter.
  - apply Hskip; [done|]. apply IH. cbn. lia.
Qed.

Lemma findall_numerals s : Forall is_numeral (findall number_pattern s).
Proof.
  apply (findall_number_ind (λ _ toks, Forall is_numeral toks)).
  - constructor.
  - intros. by constructor.
  - done.
Qed.

Lemma lex_number_None c s : lex_number (c :: s) = None → is_digit c = false.
Proof.
  destruct (is_digit c) eqn:Hc; [|done]. unfold lex_number.
  destruct (is_sign c) eqn:Hs.
  { apply is_sign_not_digit in Hs. congruence. }
  cbn [span]. rewrite Hc.
  destruct (span is_digit s) as [ds s2].
  destruct s2 as [|c2 s3]; [done|].
  destruct (span is_digit s3) as [[|e fs] s4]; [done|].
  by destruct (is_dot c2).
Qed.

Lemma scan_cons c s toks : is_digit c = false → scan s toks → scan (c :: s) toks.
Proof.
  intros Hc. destruct 1 as [gap Hgap|gap tok rest toks Hgap Hscan].
  - constructor. by constructor.
  - apply (scan_token (c :: gap)); [by constructor|done].
Qed.

Lemma findall_scan s : scan s (findall number_pattern s).
Proof.
  apply (findall_number_ind scan).
  - apply scan_end. constructor.
  - intros c s' tok rest toks _ _ -> Hscan.
    apply (scan_token []); [constructor|done].
  - intros c s' toks Hc%lex_number_None Hscan. by apply scan_cons.
Qed.

Local Open Scope Z_scope.

(** Every numeral is read, as an [int] without a point and as a [float]
    with one. *)
Lemma parse_token_numeral t :
  is_numeral t →
  (contains_dot t = false ∧ ∃ z, parse_token t = Some (PyInt z)) ∨
  (contains_dot t = true ∧ ∃ f, parse_token t = Some (PyFloat f)).
Proof.
  intros (sg & ds & fr & -> & Hsg & Hds & [->|(fs & -> & Hfs)]).
  - left. rewrite app_nil_r. split.
    + rewrite contains_dot_sign by done. apply contains_dot_digits, Hds.
    + rewrite parse_token_int by done. eauto.
  - right. split.
    + rewrite contains_dot_sign, contains_dot_app by done.
      apply orb_true_r.
    + rewrite parse_token_float by done. eauto.
Qed.

Lemma render_total x : is_Some (render x).
Proof.
  destruct x as [z|[neg u|neg|]]; cbn; eauto.
  destruct (_ =? _); eauto.
Qed.


(** Every token of a text is read: [read_numbers] raises no
    [ValueError]. *)
Lemma numbers_of_text_total s : is_Some (numbers_of_text s).
Proof.
  unfold numbers_of_text. apply mapM_is_Some.
  eapply Forall_impl; [apply findall_numerals|].
  intros t Ht. cbn.
  destruct (parse_token_numeral t Ht) as [[_ [z ->]]|[_ [f ->]]]; eauto.
Qed.

(** * binary64 *)



(** The rounding is to nearest, and to even when two are nearest. *)
Lemma round_half_even_nearest n d :
  0 < d →
  Z.abs (2 * (round_half_even n d * d - n)) <= d ∧
  (Z.abs (2 * (round_half_even n d * d - n)) = d → Z.even (round_half_even n d) = true).
Proof.
  intros Hd. unfold round_half_even.
  pose proof (Z.div_mod n d ltac:(lia)) as Hdm.
  pose proof (Z.mod_pos_bound n d Hd) as Hr.
  destruct (2 * (n mod d) <? d) eqn:H1; [apply Z.ltb_lt in H1; split; nia|].
  apply Z.ltb_ge in H1.
  destruct (d <? 2 * (n mod d)) eqn:H2; [apply Z.ltb_lt in H2; split; nia|].
  apply Z.ltb_ge in H2.
  destruct (Z.even (n / d)) eqn:He; [split; [nia|done]|].
  split; [nia|]. intros _. rewrite Z.even_add, He. done.
Qed.






(** * The claims about tokens *)



(** C4, as the code has it.  Extraction returns only numerals (an
    optional sign, one or more digits, optionally a point and one or
    more digits), in their order in the text, and the text between them
    holds no digit.  A stretch that looks like a number and is not one
    is not skipped: its numerals are extracted, 1.2 and 3 from 1.2.3
    and 12 from 12abc. *)
Theorem findall_numerals_in_order :
  (∀ s, Forall is_numeral (findall number_pattern s) ∧
        scan s (findall number_pattern s)) ∧
  findall number_pattern (text_of_string "1.2.3") =
    [text_of_string "1.2"; text_of_string "3"] ∧
  findall number_pattern (text_of_string "12abc") = [text_of_string "12"].
Proof.
  split_and!.
  - intros s. split; [apply findall_numerals|apply findall_scan].
  - reflexivity.
  - reflexivity.
Qed.

(** C4 as stated fails: 12 is extracted from 12abc, and numbers are
    extracted from 1.2.3. *)
Lemma malformed_not_skipped :
  numbers_of_text (text_of_string "12abc") = Some [PyInt 12] ∧
  numbers_of_text (text_of_string "12abc") ≠ Some [] ∧
  numbers_of_text (text_of_string "1.2.3") ≠ Some [].
Proof. split_and!; by vm_compute. Qed.



Local Open Scope nat_scope.

(** * Properties of the driver *)

(** *** Final extensions *)

Lemma append_cons c a b : String c a +:+ b = String c (a +:+ b).
Proof. reflexivity. Qed.

Lemma append_nil_r s : s +:+ "" = s.
Proof. induction s as [|c s IH]; [done|]. by rewrite append_cons, IH. Qed.

Lemma append_assoc a b c : (a +:+ b) +:+ c = a +:+ (b +:+ c).
Proof. induction a as [|x a IH]; [done|]. by rewrite !append_cons, IH. Qed.

Lemma substring_all s : String.substring 0 (String.length s) s = s.
Proof. induction s as [|c s IH]; [done|]. cbn. by rewrite IH. Qed.

Lemma substring_split k s :
  k ≤ String.length s →
  String.substring 0 k s +:+ String.substring k (String.length s - k) s = s.
Proof.
  revert k; induction s as [|c s IH]; intros k Hk.
  - cbn in Hk. by replace k with 0 by lia.
  - destruct k as [|k]; cbn [String.substring String.length Nat.sub].
    + cbn. by rewrite substring_all.
    + rewrite append_cons, IH; [done|cbn in Hk; lia].
Qed.

Lemma length_substring_tail k s :
  k ≤ String.length s →
  String.length (String.substring k (String.length s - k) s) = String.length s - k.
Proof.
  revert k; induction s as [|c s IH]; intros k Hk.
  - cbn in Hk. by replace k with 0 by lia.
  - destruct k as [|k]; cbn [String.substring String.length Nat.sub].
    + by rewrite substring_all.
    + apply IH. cbn in Hk. lia.
Qed.

Lemma rfind_dot_None i s : rfind_dot i s = None → has_point s = false.
Proof.
  revert i; induction s as [|c s IH]; intros i; [done|]. cbn [rfind_dot].
  destruct (rfind_dot (S i) s) eqn:Hr; [done|].
  destruct (Ascii.eqb c dot) eqn:Hc; [done|]. intros _.
  unfold has_point. cbn. rewrite Ascii.eqb_sym. 
  change (Ascii.ascii_of_nat 46) with dot. rewrite Hc. by apply (IH (S i)).
Qed.

(** [rfind] finds a point, and there is none after it. *)
Lemma rfind_dot_Some i s j :
  rfind_dot i s = Some j →
  ∃ k e, j = i + k ∧ k < String.length s ∧
         String.substring k (String.length s - k) s = String dot e ∧
         has_point e = false.
Proof.
  revert i j; induction s as [|c s IH]; intros i j; [done|]. cbn [rfind_dot].
  destruct (rfind_dot (S i) s) as [j'|] eqn:Hr.
  - intros [= <-]. destruct (IH _ _ Hr) as (k & e & -> & Hk & Hsub & He).
    exists (S k), e. cbn [String.length String.substring Nat.sub].
    split_and!; [lia|lia|done|done].
  - destruct (Ascii.eqb c dot) eqn:Hc; [|done]. intros [= <-].
    apply Ascii.eqb_eq in Hc as ->.
    exists 0, s. cbn [String.length String.substring Nat.sub].
    rewrite substring_all. split_and!; [lia|lia|done|].
    by eapply rfind_dot_None.
Qed.

(** The final extension of a name is its end, and is empty or a point
    followed by no other point. *)
Lemma name_suffix_spec name :
  String.substring 0 (String.length name - String.length (name_suffix name)) name
    +:+ name_suffix name = name ∧
  (name_suffix name = "" ∨
   ∃ e, name_suffix name = String dot e ∧ has_point e = false).
Proof.
  unfold name_suffix.
  destruct (rfind_dot 0 name) as [i|] eqn:Hr.
  2:{ split; [|by left]. cbn [String.length].
      by rewrite Nat.sub_0_r, substring_all, append_nil_r. }
  destruct (_ && _) eqn:Hcond.
  2:{ split; [|by left]. cbn [String.length].
      by rewrite Nat.sub_0_r, substring_all, append_nil_r. }
  destruct (rfind_dot_Some _ _ _ Hr) as (k & e & -> & Hk & Hsub & He).
  cbn [Nat.add]. split; [|right; by exists e].
  rewrite length_substring_tail by lia.
  replace (String.length name - (String.length name - k)) with k by lia.
  apply substring_split. lia.
Qed.

(** [with_suffix(".sorted.txt")] puts [.sorted.txt] in the place of the
    final extension of the name; it fails only on a path without a
    name. *)
Lemma with_suffix_sorted p :
  path_name p ≠ "" →
  ∃ stem,
    path_name p = stem +:+ name_suffix (path_name p) ∧
    with_suffix p ".sorted.txt" =
      Some (MkPath (path_root p)
                   (removelast (path_parts p) ++ [stem +:+ ".sorted.txt"])).
Proof.
  intros Hname.
  destruct (name_suffix_spec (path_name p)) as [Hsplit _].
  exists (String.substring 0
            (String.length (path_name p) -
             String.length (name_suffix (path_name p))) (path_name p)).
  split; [done|]. unfold with_suffix.
  replace (contains_slash ".sorted.txt") with false by done.
  replace (negb (String.eqb ".sorted.txt" "") &&
           negb (String.prefix "." ".sorted.txt") ||
           String.eqb ".sorted.txt" ".") with false by done.
  apply String.eqb_neq in Hname. rewrite Hname.
  destruct (String.eqb (name_suffix (path_name p)) "") eqn:Hold; [|done].
  apply String.eqb_eq in Hold. rewrite Hold. cbn [String.length].
  by rewrite Nat.sub_0_r, substring_all.
Qed.

Lemma mapM_render_total nums : is_Some (mapM render nums).
Proof.
  apply mapM_is_Some, Forall_forall. intros x _. apply render_total.
Qed.

Lemma bubble_sort_total {A} (gt : A → A → bool) arr : is_Some (bubble_sort gt arr).
Proof.
  destruct (bubble_sort_run_passes gt arr) as (out & s & Hrun & _).
  unfold bubble_sort. rewrite Hrun. by eexists.
Qed.

Section DriverFacts.

Variable resolve : path → string.

(** The statements of [main], one after the other. *)
Lemma bind_run {A B} (m : io A) (f : A → io B) w :
  (m ≫= f) w =
  match m w with
  | (Returns a, w') => f a w'
  | (Raises e, w') => (Raises e, w')
  end.
Proof. reflexivity. Qed.

Ltac io_step :=
  first [ rewrite bind_run
        | progress cbn [mret io_ret lift raise sys_exit print logged
                        files stdout calls negb bool_decide decide_rel
                        list_eq_nil_dec] ].

(** C5. When the input path does not name a regular file, [main]
    prints the absolute resolved path in its message and exits with
    status 1; it has asked the file system only whether the file is
    there, read nothing and written nothing. *)
Theorem main_input_not_found (argv : list string) (w : world) :
  (∀ content, files w !! resolve (input_path argv) ≠ Some (File content)) →
  main resolve argv w =
    (Raises (SystemExit 1),
     World (files w)
           (stdout w +:+ ("Input file not found: " +:+
                          resolve (input_path argv)) +:+ newline)
           (calls w ++ [CallIsFile (resolve (input_path argv))])) ∧
  exit_status (main resolve argv w).1 = 1%Z.
Proof.
  intros Hnot.
  assert (Hrun : main resolve argv w =
    (Raises (SystemExit 1),
     World (files w)
           (stdout w +:+ ("Input file not found: " +:+
                          resolve (input_path argv)) +:+ newline)
           (calls w ++ [CallIsFile (resolve (input_path argv))]))).
  { unfold main, is_file. repeat io_step.
    destruct (files w !! resolve (input_path argv)) as [[content|]|] eqn:Hf;
      [by destruct (Hnot content)|by repeat io_step..]. }
  by rewrite Hrun.
Qed.

(** C6. When the input file is there and holds no number, [main]
    prints that it found none and exits with status 0; it has read the
    file and written nothing, so that no output file is created. *)
Theorem main_no_numbers (argv : list string) (w : world) (content : text) :
  files w !! resolve (input_path argv) = Some (File content) →
  numbers_of_text content = Some [] →
  main resolve argv w =
    (Raises (SystemExit 0),
     World (files w)
           (stdout w +:+ "No numbers found in the file." +:+ newline)
           (calls w ++ [CallIsFile (resolve (input_path argv));
                        CallRead (resolve (input_path argv))])) ∧
  exit_status (main resolve argv w).1 = 0%Z.
Proof.
  intros Hfile Hnone.
  assert (Hrun : main resolve argv w =
    (Raises (SystemExit 0),
     World (files w)
           (stdout w +:+ "No numbers found in the file." +:+ newline)
           (calls w ++ [CallIsFile (resolve (input_path argv));
                        CallRead (resolve (input_path argv))]))).
  { unfold main, read_numbers, is_file, read_text.
    repeat io_step. rewrite Hfile. repeat io_step. rewrite Hfile, Hnone.
    repeat io_step. by rewrite <- app_assoc, ?append_assoc. }
  by rewrite Hrun.
Qed.


End DriverFacts.

(** *** Runs *)

Lemma main_input_not_found_witness :
  main (resolve_from "/home/u") ["bubblesort.py"; "/tmp/does_not_exist.txt"]
       (World ∅ "" []) =
    (Raises (SystemExit 1),
     World ∅
           ("" +:+ ("Input file not found: " +:+
                    resolve_from "/home/u"
                      (input_path ["bubblesort.py"; "/tmp/does_not_exist.txt"]))
               +:+ newline)
           ([] ++ [CallIsFile (resolve_from "/home/u"
                     (input_path ["bubblesort.py"; "/tmp/does_not_exist.txt"]))])) ∧
  exit_status
    (main (resolve_from "/home/u") ["bubblesort.py"; "/tmp/does_not_exist.txt"]
          (World ∅ "" [])).1 = 1%Z.
Proof.
  apply (main_input_not_found (resolve_from "/home/u")
           ["bubblesort.py"; "/tmp/does_not_exist.txt"] (World ∅ "" [])).
  intros content. by vm_compute.
Defined.

Lemma main_no_numbers_witness :
  exit_status
    (main (resolve_from "/home/u") ["bubblesort.py"]
          (World {[ "/home/u/numbers.txt" := File (text_of_string "a, b") ]}
                 "" [])).1 = 0%Z.
Proof.
  apply (main_no_numbers (resolve_from "/home/u") ["bubblesort.py"]
           (World {[ "/home/u/numbers.txt" := File (text_of_string "a, b") ]}
                  "" [])
           (text_of_string "a, b")).
  - by vm_compute.
  - reflexivity.
Defined.


(** The scenarios of the specification. *)
Example scenario_1 :
  let w := World {[ "/home/u/numbers.txt" :=
                      File (text_of_string ("12, 5, 9" +:+ newline +:+
                                            "3  1" +:+ newline +:+ "7")) ]} "" [] in
  let r := main (resolve_from "/home/u") ["bubblesort.py"] w in
  r.1 = Returns () ∧
  stdout r.2 = "Sorted numbers:" +:+ newline +:+ "1 3 5 7 9 12" +:+ newline +:+
               "Written to: /home/u/numbers.sorted.txt" +:+ newline ∧
  files r.2 !! "/home/u/numbers.sorted.txt" = Some (File (text_of_string "1 3 5 7 9 12")).
Proof. by vm_compute. Qed.

Example scenario_2 :
  output_line (text_of_string "-2.5 3 0 0.0") = Some "-2.5 0 0 3".
Proof. by vm_compute. Qed.

Example scenario_5 :
  output_line (text_of_string "5 3 3 1") = Some "1 3 3 5".
Proof. by vm_compute. Qed.

(** An [int] and a [float] are compared by value, without rounding the
    [int]; the zeros are equal; digits of any script are digits. *)
Example mixed_comparison_exact :
  py_gt (PyInt 9007199254740993)
        (PyFloat (float_of_ratio false 9007199254740992 1)) = true ∧
  py_eq (PyInt 0) (PyFloat (FFinite true 0)) = true ∧
  py_gt (PyFloat (FInf false)) (PyInt (10 ^ 400)) = true.
Proof. by vm_compute. Qed.

Example digits_of_other_scripts :
  output_line [1637%N; 32%N; 1635%N; 46%N; 1637%N; 32%N; 65301%N] =
    Some "3.5 5 5".
Proof. by vm_compute. Qed.

Local Open Scope nat_scope.

(** * More about the sorter *)

Section BubbleSortMore.

Context {A : Type} (gt : A → A → bool).

(** The statistics only grow along the passes. *)
Lemma passes_swaps_mono pre suf s out s' :
  passes gt pre suf s out s' → total_swaps s ≤ total_swaps s'.
Proof.
  induction 1 as [suf s|x l suf s Hflag|x l suf s r y out s' Hflag Hr _ IH];
    cbn [total_swaps] in *; lia.
Qed.

(** A run without exchange ran on a list whose adjacent pairs were in
    order, and returned it. *)
Lemma passes_no_swap pre suf s out s' :
  passes gt pre suf s out s' → total_swaps s' = total_swaps s →
  out = pre ++ suf ∧ Sorted (not_gt gt) pre.
Proof.
  destruct 1 as [suf s|x l suf s Hflag|x l suf s r y out s' Hflag Hr Hp];
    intros Hsw.
  - split; [done|constructor].
  - destruct (bubble_quiet gt x l Hflag) as [-> Hs]. done.
  - apply passes_swaps_mono in Hp. cbn [total_swaps] in Hp.
    assert ((bubble gt x l).2 = 0) as Hk%bubble_flag by lia.
    congruence.
Qed.

(** The pass that starts with [m] places unsettled makes [m - 1]
    comparisons, the next one [m - 2], and so on. *)
Lemma passes_comparisons pre suf s out s' :
  passes gt pre suf s out s' →
  ∃ k, k ≤ length pre ∧ (pre ≠ [] → 0 < k) ∧
       pass_comparisons s' =
         pass_comparisons s ++ ((λ i, length pre - 1 - i) <$> seq 0 k).
Proof.
  induction 1 as [suf s|x l suf s Hflag|x l suf s r y out s' Hflag Hr _ IH].
  - exists 0. split_and!; [done|done|]. by rewrite app_nil_r.
  - exists 1. cbn [length pass_comparisons seq fmap list_fmap].
    split_and!; [lia|lia|]. do 3 f_equal. lia.
  - destruct IH as (k & Hk & _ & Hs').
    pose proof (bubble_length gt x l) as Hlen. rewrite Hr, length_app in Hlen.
    cbn [length] in Hlen. cbn [pass_comparisons] in Hs'.
    exists (S k). cbn [length]. split_and!; [lia|lia|].
    rewrite Hs', <- app_assoc. f_equal. cbn [seq fmap list_fmap app].
    f_equal; [lia|]. rewrite <- seq_shift, <- list_fmap_compose.
    apply list_fmap_ext. intros i j _. cbn. lia.
Qed.

Lemma sum_descending m k :
  k ≤ m → 2 * sum_list ((λ i, m - 1 - i) <$> seq 0 k) ≤ m * (m - 1).
Proof.
  revert m; induction k as [|k IH]; intros m Hk; [cbn; lia|].
  destruct m as [|m]; [lia|].
  cbn [seq fmap list_fmap sum_list_with]. unfold id at 1.
  rewrite <- seq_shift, <- list_fmap_compose.
  specialize (IH m ltac:(lia)).
  erewrite (list_fmap_ext _ (λ i, m - 1 - i)); [|intros i j _; cbn; lia].
  nia.
Qed.

(** A list whose adjacent pairs are in order is returned as it is. *)
Lemma bubble_sort_of_sorted arr :
  Sorted (not_gt gt) arr → bubble_sort gt arr = Some arr.
Proof.
  intros Hs. destruct (bubble_sort_run_passes gt arr) as (out & s & Hrun & Hp).
  unfold bubble_sort. rewrite Hrun. cbn. destruct arr as [|x l]; [by inv Hp|].
  pose proof (passes_sorted_input gt x l no_stats Hs) as Hp'.
  by destruct (passes_deterministic _ _ _ _ _ _ _ _ Hp Hp') as [-> _].
Qed.

(** Where [>] is asymmetric and its negation transitive on every
    element, the result is in order. *)
Lemma bubble_sort_ordered arr out :
  (∀ a b, gt a b = true → gt b a = false) →
  (∀ a b c, not_gt gt a b → not_gt gt b c → not_gt gt a c) →
  bubble_sort gt arr = Some out → StronglySorted (not_gt gt) out.
Proof.
  intros Hasym Htrans. unfold bubble_sort.
  destruct (bubble_sort_run_passes gt arr) as (out' & s & Hrun & Hp).
  rewrite Hrun. intros [= <-].
  eapply (passes_sorted gt (λ _, True)); [| |done| | |].
  - intros a b _ _. apply Hasym.
  - intros a b c _ _ _. apply Htrans.
  - apply Forall_forall. done.
  - constructor.
  - intros a b _ Hb. by apply elem_of_nil in Hb.
Qed.

End BubbleSortMore.

(** [bubble_sort] rearranges and never loses or repeats an element,
    whatever the elements are and whatever [>] says of them: also when
    [>] is no order, as among values that include a NaN. *)
Theorem bubble_sort_permutes {A : Type} (gt : A → A → bool) (arr : list A) :
  ∃ out, bubble_sort gt arr = Some out ∧ out ≡ₚ arr ∧ length out = length arr.
Proof.
  destruct (bubble_sort_run_passes gt arr) as (out & s & Hrun & Hp).
  exists out. unfold bubble_sort. rewrite Hrun.
  apply passes_perm in Hp. rewrite app_nil_r in Hp.
  split_and!; [done|done|by rewrite Hp].
Qed.

(** The passes shrink by one: on [n] elements the first pass makes
    [n - 1] comparisons, the next one [n - 2], and so on for as many
    passes as are made, at least one when there is an element; in all
    at most [n * (n - 1) / 2] comparisons. *)
Theorem bubble_sort_comparisons {A : Type} (gt : A → A → bool) (arr : list A) :
  ∃ out s k,
    bubble_sort_run gt arr = Some (out, s) ∧
    k ≤ length arr ∧ (arr ≠ [] → 0 < k) ∧
    pass_comparisons s = (λ i, length arr - 1 - i) <$> seq 0 k ∧
    2 * sum_list (pass_comparisons s) ≤ length arr * (length arr - 1).
Proof.
  destruct (bubble_sort_run_passes gt arr) as (out & s & Hrun & Hp).
  destruct (passes_comparisons _ _ _ _ _ _ Hp) as (k & Hk & Hpos & Hs).
  exists out, s, k. cbn [no_stats pass_comparisons app] in Hs.
  split_and!; [done..|]. rewrite Hs. by apply sum_descending.
Qed.

(** [bubble_sort] makes no exchange exactly on the lists whose adjacent
    pairs are in order, and then returns the list as it was. *)
Theorem no_swap_iff_sorted {A : Type} (gt : A → A → bool) (arr : list A) :
  ∃ out s,
    bubble_sort_run gt arr = Some (out, s) ∧
    (total_swaps s = 0 ↔ Sorted (not_gt gt) arr) ∧
    (total_swaps s = 0 → out = arr).
Proof.
  destruct (bubble_sort_run_passes gt arr) as (out & s & Hrun & Hp).
  exists out, s. split; [done|].
  assert (Hzero : total_swaps s = 0 → out = arr ∧ Sorted (not_gt gt) arr).
  { intros H0. destruct (passes_no_swap _ _ _ _ _ _ Hp H0) as [-> Hs].
    by rewrite app_nil_r. }
  split; [split|]; [apply Hzero| |apply Hzero].
  intros Hs. destruct arr as [|x l]; [by inv Hp|].
  pose proof (passes_sorted_input gt x l no_stats Hs) as Hp'.
  by destruct (passes_deterministic _ _ _ _ _ _ _ _ Hp Hp') as [_ ->].
Qed.

(** "After each pass, the largest element is at the end": the first run
    of the inner loop over a list of numbers leaves last an element
    that none exceeds, and loses none. *)
Theorem first_pass_max_last (x : pynum) (l : list pynum) :
  Forall is_number (x :: l) →
  ∃ st r y,
    inner_loop py_gt (seq 0 (length l)) (PassState (x :: l) false 0 0) = Some st ∧
    ps_arr st = r ++ [y] ∧
    ps_arr st ≡ₚ x :: l ∧
    Forall (λ a, py_le a y = true) (x :: l).
Proof.
  intros Hnum.
  pose proof (inner_loop_bubble py_gt l [] x [] false 0 0) as Hloop.
  cbn [length app] in Hloop. rewrite !app_nil_r in Hloop.
  destruct (snoc_of_length _ _ (bubble_length py_gt x l)) as (r & y & Hr & _).
  eexists _, r, y. split; [exact Hloop|]. cbn [ps_arr].
  split_and!; [done|apply bubble_perm|].
  assert (Hy : is_number y).
  { eapply Forall_forall; [exact Hnum|].
    rewrite <- (bubble_perm py_gt x l), Hr. set_solver. }
  eapply Forall_impl.
  - apply Forall_and. split; [exact Hnum|].
    eapply (bubble_last_max py_gt is_number); [| |exact Hnum|exact Hr].
    + intros a b _ _. apply py_gt_asym.
    + intros a b c _ Hb _. by apply py_not_gt_trans.
  - intros a [Ha Hle]. by apply py_le_not_gt.
Qed.

Lemma first_pass_max_last_witness :
  ∃ st r y,
    inner_loop py_gt (seq 0 (length [PyInt 1; PyFloat (FFinite false 7)]))
               (PassState (PyInt 5 :: [PyInt 1; PyFloat (FFinite false 7)])
                          false 0 0) = Some st ∧
    ps_arr st = r ++ [y] ∧
    ps_arr st ≡ₚ PyInt 5 :: [PyInt 1; PyFloat (FFinite false 7)] ∧
    Forall (λ a, py_le a y = true)
           (PyInt 5 :: [PyInt 1; PyFloat (FFinite false 7)]).
Proof.
  apply (first_pass_max_last (PyInt 5) [PyInt 1; PyFloat (FFinite false 7)]).
  repeat constructor; by eexists.
Defined.

(** Sorting is idempotent on numbers: what [bubble_sort] returns, it
    returns unchanged when given it again. *)
Theorem bubble_sort_idempotent (arr out : list pynum) :
  Forall is_number arr →
  bubble_sort py_gt arr = Some out →
  bubble_sort py_gt out = Some out.
Proof.
  intros Hnum Hsort.
  destruct (bubble_sort_numbers arr Hnum) as (out' & Hsort' & _ & Hord).
  rewrite Hsort in Hsort'. injection Hsort' as <-.
  apply bubble_sort_of_sorted.
  apply StronglySorted_Sorted.
  eapply (StronglySorted_on _ _ (λ _, True)); [| |exact Hord].
  - intros a b _ _. apply py_le_gt.
  - by apply Forall_forall.
Qed.

Lemma bubble_sort_idempotent_witness :
  bubble_sort py_gt [PyFloat (FFinite false 0); PyInt 1; PyInt 2] =
    Some [PyFloat (FFinite false 0); PyInt 1; PyInt 2].
Proof.
  apply (bubble_sort_idempotent [PyInt 1; PyInt 2; PyFloat (FFinite false 0)]).
  - repeat constructor; by eexists.
  - reflexivity.
Defined.

Local Open Scope Z_scope.

Lemma py_gt_int a b : py_gt (PyInt a) (PyInt b) = (a >? b).
Proof.
  unfold py_gt. cbn. pose proof scale_pos.
  apply eq_iff_eq_true. rewrite Z.ltb_lt, Z.gtb_lt. nia.
Qed.

Lemma bubble_sort_ints_merge zs :
  bubble_sort py_gt (PyInt <$> zs) = Some (PyInt <$> merge_sort Z.le zs).
Proof.
  destruct (bubble_sort_run_passes Z.gtb zs) as (out & s & Hrun & Hp).
  assert (Hsort : bubble_sort Z.gtb zs = Some out)
    by (unfold bubble_sort; by rewrite Hrun).
  assert (Hperm : out ≡ₚ zs).
  { apply passes_perm in Hp. by rewrite app_nil_r in Hp. }
  rewrite (bubble_sort_fmap PyInt Z.gtb py_gt py_gt_int zs out Hsort).
  do 2 f_equal.
  apply (StronglySorted_unique Z.le).
  - eapply (StronglySorted_on (not_gt Z.gtb) _ (λ _, True)).
    + intros a b _ _. unfold not_gt. rewrite Z.gtb_ltb. by intros ?%Z.ltb_ge.
    + by apply Forall_forall.
    + eapply bubble_sort_ordered; [| |exact Hsort].
      * intros a b. rewrite !Z.gtb_ltb, Z.ltb_lt, Z.ltb_ge. lia.
      * unfold not_gt. intros a b c. rewrite !Z.gtb_ltb, !Z.ltb_ge. lia.
  - apply StronglySorted_merge_sort; apply _.
  - by rewrite Hperm, merge_sort_Permutation.
Qed.

(** On integers [bubble_sort] returns what a merge sort returns: the
    integers in ascending order. *)
Theorem bubble_sort_ints (zs : list Z) :
  bubble_sort py_gt (PyInt <$> zs) = Some (PyInt <$> merge_sort Z.le zs).
Proof. apply bubble_sort_ints_merge. Qed.

Local Open Scope nat_scope.

(** * More about the extraction *)

Lemma span_rest p s : ∀ c r, (span p s).2 = c :: r → p c = false.
Proof.
  induction s as [|d s IH]; intros c r; [done|]. cbn [span].
  destruct (p d) eqn:Hd.
  - destruct (span p s) as [a b]. cbn in *. apply IH.
  - cbn. by intros [= <- _].
Qed.

Lemma span_digits ds rest :
  Forall (λ c, is_digit c = true) ds →
  ¬ starts_with_digit rest →
  span is_digit (ds ++ rest) = (ds, rest).
Proof.
  intros Hds Hrest. induction Hds as [|d ds Hd _ IH]; cbn [app span].
  - destruct rest as [|c r]; [done|]. cbn [span].
    destruct (is_digit c) eqn:Hc; [|done].
    destruct Hrest. by exists c, r.
  - by rewrite Hd, IH.
Qed.

Lemma numeral_has_digit t : is_numeral t → ∃ d, d ∈ t ∧ is_digit d = true.
Proof.
  intros (sg & ds & fr & -> & _ & [Hne Hds] & _).
  destruct ds as [|d ds]; [done|]. exists d. split; [set_solver|by inv Hds].
Qed.

(** What [lex_number] finds is as long as it can be. *)
Lemma lex_number_maximal s tok rest :
  lex_number s = Some (tok, rest) →
  ¬ starts_with_digit rest ∧
  ¬ (contains_dot tok = false ∧ starts_fraction rest).
Proof.
  unfold lex_number.
  destruct (match s with
            | c :: s' => if is_sign c then ([c], s') else ([], s)
            | [] => ([], [])
            end) as [sg s1].
  pose proof (span_rest is_digit s1) as Hrest1.
  destruct (span is_digit s1) as [ds s2]. cbn [snd] in Hrest1.
  destruct ds as [|d ds]; [done|].
  assert (Hno2 : ¬ starts_with_digit s2).
  { intros (c & r & -> & Hc). by rewrite (Hrest1 c r) in Hc. }
  destruct s2 as [|c s3].
  { intros [= <- <-]. split; [done|]. by intros [_ (? & ? & ? & _)]. }
  pose proof (span_rest is_digit s3) as Hrest3.
  pose proof (span_app is_digit s3) as Happ3.
  destruct (span is_digit s3) as [fs s4]. cbn [fst snd] in *.
  assert (Hshort : ¬ starts_with_digit (c :: s3) ∧
                   (fs = [] ∨ is_dot c = false →
                    ¬ starts_fraction (c :: s3))).
  { split; [done|]. intros Hcase (e & r & [= -> ->] & He).
    destruct Hcase as [->|Hdot]; [|by vm_compute in Hdot].
    assert (is_digit e = false) by (by apply (Hrest3 e r)).
    congruence. }
  destruct fs as [|e fs].
  { intros [= <- <-]. split; [apply Hshort|]. intros [_ Hf].
    by apply Hshort in Hf; [|left]. }
  destruct (is_dot c) eqn:Hdot.
  - intros [= <- <-]. split.
    + intros (x & r & -> & Hx). by rewrite (Hrest3 x r) in Hx.
    + intros [Hnodot _]. unfold contains_dot in Hnodot.
      rewrite existsb_app in Hnodot. cbn [existsb] in Hnodot.
      rewrite existsb_app in Hnodot. cbn [existsb] in Hnodot.
      rewrite Hdot in Hnodot.
      by rewrite !orb_true_r in Hnodot.
  - intros [= <- <-]. split; [apply Hshort|]. intros [_ Hf].
    by apply Hshort in Hf; [|right].
Qed.

(** A sign before a digit starts a numeral. *)
Lemma lex_number_signed c d r :
  is_sign c = true → is_digit d = true → is_Some (lex_number (c :: d :: r)).
Proof.
  intros Hc Hd. unfold lex_number. rewrite Hc. cbn [span]. rewrite Hd.
  destruct (span is_digit r) as [ds s2].
  destruct s2 as [|c2 s3]; [by eexists|].
  destruct (span is_digit s3) as [[|e fs] s4]; [by eexists|].
  destruct (is_dot c2); by eexists.
Qed.

(** A numeral that the text does not continue is what [lex_number]
    finds. *)
Lemma lex_number_numeral tok rest :
  is_numeral tok →
  ¬ starts_with_digit rest →
  ¬ (contains_dot tok = false ∧ starts_fraction rest) →
  lex_number (tok ++ rest) = Some (tok, rest).
Proof.
  intros (sg & ds & fr & -> & Hsg & [Hne Hds] & Hfr) Hrest Hfrac.
  assert (Hspan : span is_digit ((ds ++ fr) ++ rest) = (ds, fr ++ rest)).
  { rewrite <- app_assoc. apply span_digits; [done|].
    destruct Hfr as [->|(fs & -> & _)]; [done|].
    intros (c & r & [= <- _] & Hc). by vm_compute in Hc. }
  assert (Hlex : ∀ s1, span is_digit s1 = (ds, fr ++ rest) →
    (let '(ds', s2) := span is_digit s1 in
     match ds' with
     | [] => None
     | _ :: _ =>
         match s2 with
         | c :: s3 =>
             let '(fs, s4) := span is_digit s3 in
             match fs with
             | _ :: _ => if is_dot c then Some (sg ++ ds' ++ c :: fs, s4)
                         else Some (sg ++ ds', s2)
             | [] => Some (sg ++ ds', s2)
             end
         | [] => Some (sg ++ ds', s2)
         end
     end) = Some (sg ++ ds ++ fr, rest)).
  { intros s1 ->. destruct ds as [|d ds]; [done|].
    destruct Hfr as [->|(fs & -> & [Hfne Hfs])].
    - rewrite app_nil_r. cbn [app]. destruct rest as [|c s3]; [done|].
      destruct (span is_digit s3) as [[|e fs] s4] eqn:Hs3; [done|].
      destruct (is_dot c) eqn:Hdot; [|done].
      destruct Hfrac. split.
      + rewrite app_nil_r, contains_dot_sign by done.
        by apply contains_dot_digits.
      + apply is_dot_eq in Hdot as ->.
        destruct s3 as [|x s3']; [done|]. cbn [span] in Hs3.
        destruct (is_digit x) eqn:Hx; [|done]. by exists x, s3'.
    - cbn [app]. rewrite (span_digits fs rest) by done.
      destruct fs as [|e fs]; [done|].
      replace (is_dot char_dot) with true by done.
      done. }
  unfold lex_number. rewrite <- !app_assoc.
  destruct Hsg as [->|[->| ->]].
  - cbn [app]. destruct ds as [|d ds]; [done|]. cbn [app].
    rewrite is_digit_not_sign by (by inv Hds).
    apply (Hlex ((d :: ds) ++ fr ++ rest)). by rewrite app_assoc.
  - cbn [app]. replace (is_sign char_plus) with true by done.
    apply Hlex. by rewrite app_assoc.
  - cbn [app]. replace (is_sign char_minus) with true by done.
    apply Hlex. by rewrite app_assoc.
Qed.

(** Nothing starts at a character that is no digit and no sign before a
    digit. *)
Lemma lex_number_gap c s :
  is_digit c = false →
  ¬ (is_sign c = true ∧ starts_with_digit s) →
  lex_number (c :: s) = None.
Proof.
  intros Hc Hsign. unfold lex_number. destruct (is_sign c) eqn:Hs.
  - destruct s as [|d r]; [done|]. cbn [span].
    destruct (is_digit d) eqn:Hd; [|done].
    destruct Hsign. split; [done|]. by exists d, r.
  - cbn [span]. by rewrite Hc.
Qed.

Lemma findall_tokenized s : tokenized s (findall number_pattern s).
Proof.
  apply (findall_number_ind tokenized).
  - apply tokenized_end. constructor.
  - intros c s' tok rest toks Hlex Hnum -> Htok.
    destruct (lex_number_maximal _ _ _ Hlex) as [Hrest Hfrac].
    apply (tokenized_token []); [constructor|done| |done..].
    intros [(g & x & Hg & _) _]. by destruct g.
  - intros c s' toks Hlex Htok.
    pose proof (lex_number_None _ _ Hlex) as Hc.
    destruct Htok as [gap Hgap|gap tok rest toks Hgap Hnum Hsign Hrest Hfrac Htok].
    + apply tokenized_end. by constructor.
    + apply (tokenized_token (c :: gap)); [by constructor|done| |done..].
      intros [(g & x & Hg & Hx) Hdig]. destruct g as [|y g].
      * injection Hg as -> ->. destruct Hdig as (d & r & -> & Hd).
        destruct (lex_number_signed x d (r ++ rest) Hx Hd) as [? Hsome].
        cbn [app] in Hlex. congruence.
      * injection Hg as -> ->. apply Hsign. split; [by exists g, x|done].
Qed.

Lemma tokenized_findall s toks :
  tokenized s toks → findall number_pattern s = toks.
Proof.
  induction 1 as [gap Hgap|gap tok rest toks Hgap Hnum Hsign Hrest Hfrac _ IH].
  - induction Hgap as [|c gap Hc Hgap IHgap]; [done|].
    rewrite findall_number_cons, lex_number_gap; [done|done|].
    intros [_ (d & r & -> & Hd)]. inv Hgap. congruence.
  - induction Hgap as [|c gap Hc Hgap IHgap].
    + cbn [app]. destruct (tok ++ rest) as [|c s'] eqn:Hts.
      { apply is_numeral_length in Hnum. destruct tok; [cbn in Hnum; lia|done]. }
      rewrite findall_number_cons, <- Hts.
      rewrite lex_number_numeral by done. by rewrite IH.
    + cbn [app]. rewrite findall_number_cons, lex_number_gap.
      * apply IHgap. intros [(g & x & -> & Hx) Hdig]. apply Hsign.
        split; [|done]. by exists (c :: g), x.
      * done.
      * intros [Hs (d & r & Hdr & Hd)]. destruct gap as [|y gap].
        -- apply Hsign. split; [by exists [], c|].
           cbn [app] in Hdr. destruct tok as [|t tok].
           { apply is_numeral_length in Hnum. cbn in Hnum. lia. }
           injection Hdr as -> _. by exists d, tok.
        -- injection Hdr as -> _. inv Hgap. congruence.
Qed.

Lemma tokenized_join sep gap ts :
  sep ≠ [] → Forall separator sep → Forall separator gap →
  Forall is_numeral ts →
  tokenized (gap ++ join_text sep ts) ts.
Proof.
  intros Hne Hsep Hgap Hts. revert gap Hgap.
  assert (Hnodigit : ∀ g, Forall separator g → no_digit g).
  { intros g Hg. eapply Forall_impl; [exact Hg|]. by intros c [? _]. }
  assert (Hnosign : ∀ g, Forall separator g → ¬ ends_with_sign g).
  { intros g Hg (g' & c & -> & Hc). apply Forall_app in Hg as [_ Hg].
    inv Hg. match goal with H : separator c |- _ => destruct H as (_ & ? & _) end.
    congruence. }
  induction Hts as [|t ts Ht Hts IH]; intros gap Hgap.
  - rewrite app_nil_r. apply tokenized_end. auto.
  - cbn [join_text]. destruct ts as [|t' ts'].
    + rewrite <- (app_nil_r t) at 1.
      apply tokenized_token; [auto|done| | | |].
      * intros [Hs _]. by eapply Hnosign.
      * by intros (? & ? & ? & _).
      * by intros [_ (? & ? & ? & _)].
      * apply tokenized_end. constructor.
    + destruct sep as [|c sep']; [done|].
      apply tokenized_token; [auto|done| | | |].
      * intros [Hs _]. by eapply Hnosign.
      * intros (d & r & [= <- _] & Hd). inv Hsep.
        match goal with H : separator c |- _ => destruct H as (? & _) end.
        congruence.
      * intros [_ (d & r & [= -> _] & _)]. inv Hsep.
        match goal with H : separator char_dot |- _ => destruct H as (_ & _ & ?) end.
        done.
      * by apply IH.
Qed.

Lemma tokenized_nil s : tokenized s [] ↔ no_digit s.
Proof. split; [by inversion 1|apply tokenized_end]. Qed.

(** [re.findall] with the pattern of [read_numbers] returns the cut of
    the text into numerals that are as long as they can be, and nothing
    else is such a cut: no digit is skipped, a sign before a digit is
    part of the numeral, and a numeral ends neither before a digit nor
    before a fraction that it could take. *)
Theorem findall_characterised (s : text) (toks : list text) :
  findall number_pattern s = toks ↔ tokenized s toks.
Proof.
  split; [intros <-; apply findall_tokenized|apply tokenized_findall].
Qed.

(** Numbers written one after the other with a separator between them
    (one or more characters that are no digit, no sign and no point:
    spaces, commas, newlines) are extracted as they are written. *)
Theorem findall_separated (sep : text) (ts : list text) :
  sep ≠ [] → Forall separator sep → Forall is_numeral ts →
  findall number_pattern (join_text sep ts) = ts.
Proof.
  intros Hne Hsep Hts. apply tokenized_findall.
  by apply (tokenized_join sep []).
Qed.

Lemma findall_separated_witness :
  findall number_pattern
    (join_text (text_of_string ", ")
       [text_of_string "12"; text_of_string "-5.5"; text_of_string "+9"]) =
  [text_of_string "12"; text_of_string "-5.5"; text_of_string "+9"].
Proof.
  apply (findall_separated (text_of_string ", ")
           [text_of_string "12"; text_of_string "-5.5"; text_of_string "+9"]).
  - done.
  - by repeat apply Forall_cons_2; [..|apply Forall_nil_2].
  - repeat apply Forall_cons_2; [..|apply Forall_nil_2].
    + exists [], (text_of_string "12"), [].
      split_and!; [done|by left|by repeat constructor|by left].
    + exists [char_minus], (text_of_string "5"), (text_of_string ".5").
      split_and!; [done|right; by right|by repeat constructor|].
      right. eexists. split; [done|]. by repeat constructor.
    + exists [char_plus], (text_of_string "9"), [].
      split_and!; [done|right; by left|by repeat constructor|by left].
Defined.

Lemma numbers_none_no_digit s : numbers_of_text s = Some [] ↔ no_digit s.
Proof.
  rewrite <- tokenized_nil. split.
  - intros Hnone. unfold numbers_of_text in Hnone.
    apply length_mapM in Hnone. cbn in Hnone.
    assert (Hnil : findall number_pattern s = []).
    { by destruct (findall number_pattern s). }
    rewrite <- Hnil. apply findall_tokenized.
  - intros Htok%tokenized_findall. unfold numbers_of_text. by rewrite Htok.
Qed.

(** [read_numbers] finds no number exactly in the texts without a
    digit. *)
Theorem no_numbers_iff_no_digit (s : text) :
  numbers_of_text s = Some [] ↔ no_digit s.
Proof. apply numbers_none_no_digit. Qed.


Local Open Scope Z_scope.

(** * Numerals written by [str] and read by [int] *)

Lemma text_of_string_cons c s :
  text_of_string (String c s) = Ascii.N_of_ascii c :: text_of_string s.
Proof. reflexivity. Qed.

Lemma text_of_string_app a b :
  text_of_string (a +:+ b) = text_of_string a ++ text_of_string b.
Proof.
  induction a as [|c a IH]; [done|].
  by rewrite append_cons, !text_of_string_cons, IH.
Qed.

Lemma text_of_string_concat sep l :
  text_of_string (String.concat sep l) =
  join_text (text_of_string sep) (text_of_string <$> l).
Proof.
  induction l as [|x l IH]; [done|]. cbn [String.concat fmap list_fmap join_text].
  destruct l as [|y l]; [done|].
  rewrite !text_of_string_app, IH. done.
Qed.

Lemma uint_text_digits d :
  Forall (λ c, is_digit c = true)
         (text_of_string (DecimalString.NilEmpty.string_of_uint d)).
Proof.
  induction d; cbn [DecimalString.NilEmpty.string_of_uint];
    rewrite ?text_of_string_cons; constructor; try done.
Qed.

Lemma uint_text_value_acc d acc :
  fold_left (λ a x, 10 * a + x)
    (digit_values (text_of_string (DecimalString.NilEmpty.string_of_uint d)))
    (Z.pos acc) =
  Z.pos (Pos.of_uint_acc d acc).
Proof.
  revert acc; induction d; intros acc;
    cbn [DecimalString.NilEmpty.string_of_uint Pos.of_uint_acc]; [done|..];
    rewrite text_of_string_cons; unfold digit_values in *;
    cbn [fmap list_fmap fold_left]; rewrite <- IHd; f_equal;
    match goal with
    | |- context [default 0 ?v] =>
        let x := eval vm_compute in (default 0 v) in
        change (default 0 v) with x
    end; lia.
Qed.

Lemma uint_text_value d :
  digits_value
    (digit_values (text_of_string (DecimalString.NilEmpty.string_of_uint d))) =
  Z.of_N (Pos.of_uint d).
Proof.
  unfold digits_value.
  induction d; cbn [DecimalString.NilEmpty.string_of_uint Pos.of_uint]; [done|..];
    rewrite text_of_string_cons; unfold digit_values in *;
    cbn [fmap list_fmap fold_left];
    [exact IHd|..]; cbn [Z.of_N]; rewrite <- uint_text_value_acc; f_equal.

Qed.

Lemma uint_text_all_digits d :
  all_digits (text_of_string (DecimalString.NilZero.string_of_uint d)) ∧
  digits_value (digit_values
    (text_of_string (DecimalString.NilZero.string_of_uint d))) =
  Z.of_N (Pos.of_uint d).
Proof.
  unfold DecimalString.NilZero.string_of_uint.
  destruct d; try (split; [split; [done|apply uint_text_digits]|
                           apply uint_text_value]).
  split; [split; [done|by repeat constructor]|done].
Qed.

(** [int] reads back what [str] writes. *)
Lemma parse_token_str_int z :
  is_numeral (text_of_string (str_int z)) ∧
  parse_token (text_of_string (str_int z)) = Some (PyInt z).
Proof.
  pose proof (DecimalZ.of_to z) as Hz.
  unfold str_int, DecimalString.NilZero.string_of_int.
  destruct (Z.to_int z) as [d|d]; cbn [Z.of_int] in Hz.
  - destruct (uint_text_all_digits d) as [Hd Hv]. split.
    + exists [], (text_of_string (DecimalString.NilZero.string_of_uint d)), [].
      rewrite app_nil_r. split_and!; [done|by left|done|by left].
    + pose proof (parse_token_int [] _ (or_introl eq_refl) Hd) as Hp.
      cbn [app] in Hp. rewrite Hp, Hv.
      rewrite bool_decide_eq_false_2 by done. by rewrite <- Hz.
  - destruct (uint_text_all_digits d) as [Hd Hv]. split.
    + exists [char_minus],
        (text_of_string (DecimalString.NilZero.string_of_uint d)), [].
      rewrite app_nil_r. split_and!; [done|right; by right|done|by left].
    + rewrite text_of_string_cons.
      pose proof (parse_token_int [char_minus] _
                    (or_intror (or_intror eq_refl)) Hd) as Hp.
      cbn [app] in Hp.
      change (parse_token
                (char_minus ::
                 text_of_string (DecimalString.NilZero.string_of_uint d)) =
              Some (PyInt z)).
      rewrite Hp, Hv. rewrite bool_decide_eq_true_2 by done. by rewrite <- Hz.
Qed.

Lemma separator_space : Forall separator (text_of_string " ").
Proof. by repeat constructor. Qed.

(** A line of integers, as [main] writes it, reads back as those
    integers. *)
Lemma numbers_of_ints_line zs :
  numbers_of_text (text_of_string (String.concat " " (str_int <$> zs))) =
  Some (PyInt <$> zs).
Proof.
  unfold numbers_of_text.
  rewrite text_of_string_concat, <- list_fmap_compose.
  rewrite (tokenized_findall _ ((text_of_string ∘ str_int) <$> zs)).
  - apply mapM_Some_2, Forall2_fmap, Forall_Forall2_diag, Forall_forall.
    intros z _. apply parse_token_str_int.
  - apply (tokenized_join (text_of_string " ") []);
      [done|apply separator_space|constructor|].
    apply Forall_fmap, Forall_forall. intros z _. apply parse_token_str_int.
Qed.

Lemma mapM_render_ints zs : mapM render (PyInt <$> zs) = Some (str_int <$> zs).
Proof.
  apply mapM_Some_2, Forall2_fmap, Forall_Forall2_diag, Forall_forall. done.
Qed.

Lemma output_line_of_ints s zs :
  numbers_of_text s = Some (PyInt <$> zs) →
  output_line s = Some (String.concat " " (str_int <$> merge_sort Z.le zs)).
Proof.
  intros Hnums. unfold output_line. rewrite Hnums. cbn [mbind option_bind].
  rewrite bubble_sort_ints_merge. cbn [mbind option_bind].
  by rewrite mapM_render_ints.
Qed.



(** When every token of the text is an integer, the line that [main]
    prints and writes is the decimal numerals of those integers in
    ascending order, joined by single spaces. *)
Theorem output_line_ints (s : text) (zs : list Z) :
  numbers_of_text s = Some (PyInt <$> zs) →
  output_line s = Some (String.concat " " (str_int <$> merge_sort Z.le zs)).
Proof. apply output_line_of_ints. Qed.

Lemma output_line_ints_witness :
  output_line (text_of_string "12, 5, -9") =
  Some (String.concat " " (str_int <$> merge_sort Z.le [12; 5; -9])).
Proof.
  apply (output_line_ints (text_of_string "12, 5, -9") [12; 5; -9]).
  reflexivity.
Defined.

(** On a file of integers the program reproduces its own output: the
    line it writes, given as input, is written again unchanged. *)
Theorem output_line_ints_fixpoint (s : text) (zs : list Z) (line : string) :
  numbers_of_text s = Some (PyInt <$> zs) →
  output_line s = Some line →
  output_line (text_of_string line) = Some line.
Proof.
  intros Hnums Hline. rewrite (output_line_of_ints s zs Hnums) in Hline.
  injection Hline as <-.
  rewrite (output_line_of_ints _ (merge_sort Z.le zs) (numbers_of_ints_line _)).
  do 3 f_equal.
  apply (StronglySorted_unique Z.le).
  - apply StronglySorted_merge_sort; apply _.
  - apply StronglySorted_merge_sort; apply _.
  - apply merge_sort_Permutation.
Qed.

Lemma output_line_ints_fixpoint_witness :
  output_line (text_of_string "-9 5 12") = Some "-9 5 12".
Proof.
  apply (output_line_ints_fixpoint (text_of_string "12, 5, -9") [12; 5; -9]).
  - reflexivity.
  - by vm_compute.
Defined.

(** * More about the formatter *)

Lemma int_of_whole_float (neg : bool) (u : N) (z : Z) :
  (if neg then - Z.of_N u else Z.of_N u) = z * scale →
  is_integer (FFinite neg u) = true ∧ int_of_float (FFinite neg u) = Some z.
Proof.
  pose proof scale_pos as Hs. intros Hu. cbn [is_integer int_of_float].
  destruct neg.
  - assert (Hu' : Z.of_N u = (- z) * scale) by lia.
    rewrite Hu', Z.mod_mul, Z.div_mul by lia. split; [done|]. f_equal. lia.
  - rewrite Hu, Z.mod_mul, Z.div_mul by lia. done.
Qed.

(** Equal numbers are printed alike: a whole [float] as the [int] equal
    to it, the two zeros as 0. *)
Theorem render_equal_values (x y : pynum) :
  py_eq x y = true → render x = render y.
Proof.
  pose proof scale_pos as Hs. unfold py_eq.
  destruct x as [a|[n1 u1|n1|]], y as [b|[n2 u2|n2|]]; cbn [num_key]; try done.
  - intros Heq%Z.eqb_eq. f_equal. f_equal. nia.
  - intros Heq%Z.eqb_eq. symmetry in Heq.
    destruct (int_of_whole_float _ _ _ Heq) as [Hi Hv].
    cbn [render]. by rewrite Hi, Hv.
  - by destruct n2.
  - intros Heq%Z.eqb_eq.
    destruct (int_of_whole_float _ _ _ Heq) as [Hi Hv].
    cbn [render]. by rewrite Hi, Hv.
  - intros Heq%Z.eqb_eq.
    destruct (decide (u1 = 0%N)) as [->|Hnz].
    + assert (u2 = 0%N) as -> by (destruct n1, n2; lia).
      cbn. by destruct n1, n2.
    + assert (n1 = n2 ∧ u1 = u2) as [-> ->]; [|done].
      destruct n1, n2; split; try done; lia.
  - by destruct n2.
  - by destruct n1.
  - by destruct n1.
  - by destruct n1, n2.
Qed.

Lemma render_equal_values_witness :
  render (PyFloat (FFinite true 0)) = render (PyInt 0).
Proof. apply (render_equal_values (PyFloat (FFinite true 0)) (PyInt 0)). reflexivity. Defined.


Local Open Scope nat_scope.

(** * More about the driver *)

Lemma append_inj_l a b c : a +:+ b = a +:+ c → b = c.
Proof.
  induction a as [|x a IH]; [done|]. rewrite !append_cons. intros [= H]. auto.
Qed.

Lemma length_append a b :
  String.length (a +:+ b) = String.length a + String.length b.
Proof. induction a as [|x a IH]; [done|]. rewrite append_cons. cbn. by rewrite IH. Qed.

(** The output path is never the input path: it has the same root and
    the same directories, and a name that ends in [.sorted.txt] where
    the name of the input has its final extension. *)
Theorem output_path_differs (p q : path) :
  with_suffix p ".sorted.txt" = Some q →
  q ≠ p ∧
  path_root q = path_root p ∧
  removelast (path_parts q) = removelast (path_parts p) ∧
  ∃ stem, path_name p = stem +:+ name_suffix (path_name p) ∧
          path_name q = stem +:+ ".sorted.txt".
Proof.
  intros Hq.
  assert (Hname : path_name p ≠ "").
  { intros Hn. unfold with_suffix in Hq.
    replace (contains_slash ".sorted.txt") with false in Hq by done.
    cbn [negb andb orb] in Hq.
    replace (negb (String.eqb ".sorted.txt" "") &&
             negb (String.prefix "." ".sorted.txt") ||
             String.eqb ".sorted.txt" ".") with false in Hq by done.
    by rewrite Hn in Hq. }
  destruct (with_suffix_sorted p Hname) as (stem & Hstem & Hq').
  rewrite Hq in Hq'. injection Hq' as ->.
  assert (Hqname : path_name
            (MkPath (path_root p)
                    (removelast (path_parts p) ++ [stem +:+ ".sorted.txt"])) =
          stem +:+ ".sorted.txt").
  { unfold path_name. cbn [path_parts]. apply last_last. }
  split_and!.
  - intros Heq. pose proof (f_equal path_name Heq) as Hn.
    rewrite Hqname in Hn.
    assert (Hn' : stem +:+ ".sorted.txt" =
                  stem +:+ name_suffix (path_name p)) by congruence.
    clear Hn. apply append_inj_l in Hn'. rename Hn' into Hn.
    destruct (name_suffix_spec (path_name p)) as [_ [He|(e & He & Hpt)]].
    + by rewrite He in Hn.
    + rewrite He in Hn. injection Hn as <-. by vm_compute in Hpt.
  - done.
  - cbn [path_parts]. by rewrite removelast_last.
  - exists stem. by split.
Qed.

Lemma output_path_differs_witness :
  ∃ stem, path_name (Path "data/in.v1.txt") =
            stem +:+ name_suffix (path_name (Path "data/in.v1.txt")) ∧
          path_name (MkPath "" ["data"; "in.v1.sorted.txt"]) =
            stem +:+ ".sorted.txt".
Proof.
  apply (output_path_differs (Path "data/in.v1.txt")
           (MkPath "" ["data"; "in.v1.sorted.txt"])).
  reflexivity.
Defined.

Section DriverMore.

Variable resolve : path → string.

Ltac io_case :=
  first [ rewrite bind_run
        | progress cbn [mret io_ret lift raise sys_exit print logged
                        files stdout calls negb bool_decide decide_rel
                        list_eq_nil_dec] ].

(** A run of [main], case by case. *)
Lemma main_cases (argv : list string) (w : world) :
  let p := input_path argv in
  let c1 := calls w ++ [CallIsFile (resolve p)] in
  let c2 := c1 ++ [CallRead (resolve p)] in
  match files w !! resolve p with
  | Some (File content) =>
      ∃ nums, numbers_of_text content = Some nums ∧
      match nums with
      | [] =>
          main resolve argv w =
            (Raises (SystemExit 0),
             World (files w)
                   (stdout w +:+ "No numbers found in the file." +:+ newline) c2)
      | _ :: _ =>
          ∃ sorted out,
            bubble_sort py_gt nums = Some sorted ∧
            mapM render sorted = Some out ∧
            let printed := stdout w +:+ "Sorted numbers:" +:+ newline +:+
                           String.concat " " out +:+ newline in
            match with_suffix p ".sorted.txt" with
            | None =>
                main resolve argv w =
                  (Raises ValueError, World (files w) printed c2)
            | Some q =>
                match files w !! resolve q with
                | Some Directory =>
                    main resolve argv w =
                      (Raises IsADirectoryError,
                       World (files w) printed (c2 ++ [CallWrite (resolve q)]))
                | _ =>
                    main resolve argv w =
                      (Returns (),
                       World (<[resolve q :=
                                  File (text_of_string (String.concat " " out))]>
                                (files w))
                             (printed +:+ ("Written to: " +:+ resolve q) +:+ newline)
                             (c2 ++ [CallWrite (resolve q)]))
                end
            end
      end
  | _ =>
      main resolve argv w =
        (Raises (SystemExit 1),
         World (files w)
               (stdout w +:+ ("Input file not found: " +:+ resolve p) +:+ newline)
               c1)
  end.
Proof.
  intros p c1 c2. subst p c1 c2.
  destruct (files w !! resolve (input_path argv)) as [[content|]|] eqn:Hfile.
  2,3: unfold main, is_file; repeat io_case; rewrite Hfile; by repeat io_case.
  destruct (numbers_of_text_total content) as [nums Hnums].
  exists nums. split; [done|].
  destruct nums as [|x nums].
  { unfold main, read_numbers, is_file, read_text.
    repeat io_case. rewrite Hfile. repeat io_case. rewrite Hfile, Hnums.
    repeat io_case. by rewrite ?append_assoc. }
  destruct (bubble_sort_run_passes py_gt (x :: nums)) as (sorted & s & Hrun & _).
  assert (Hsorted : bubble_sort py_gt (x :: nums) = Some sorted)
    by (unfold bubble_sort; by rewrite Hrun).
  destruct (mapM_render_total sorted) as [out Hout].
  exists sorted, out. split_and!; [done..|]. cbn zeta.
  destruct (with_suffix (input_path argv) ".sorted.txt") as [q|] eqn:Hq.
  - destruct (files w !! resolve q) as [[c|]|] eqn:Hk.
    all: unfold main, read_numbers, is_file, read_text, write_text;
      repeat io_case; rewrite Hfile; repeat io_case; rewrite Hfile, Hnums;
      repeat io_case; rewrite Hsorted; repeat io_case;
      rewrite Hout; repeat io_case; rewrite Hq; repeat io_case;
      rewrite Hk; repeat io_case; unfold print, logged;
      cbn [files stdout calls];
      by rewrite <- ?app_assoc, ?append_assoc.
  - unfold main, read_numbers, is_file, read_text, write_text.
    repeat io_case. rewrite Hfile. repeat io_case. rewrite Hfile, Hnums.
    repeat io_case. rewrite Hsorted. repeat io_case.
    rewrite Hout. repeat io_case. rewrite Hq. repeat io_case.
    by rewrite <- ?app_assoc, ?append_assoc.
Qed.

(** When the output path names a directory, [main] fails at the write
    with [IsADirectoryError], after it has printed the sorted numbers:
    nothing is written, the confirmation is not printed, and the exit
    status is 1. *)
Theorem main_output_is_directory (argv : list string) (w : world)
    (content : text) (nums : list pynum) (q : path) :
  files w !! resolve (input_path argv) = Some (File content) →
  numbers_of_text content = Some nums →
  nums ≠ [] →
  with_suffix (input_path argv) ".sorted.txt" = Some q →
  files w !! resolve q = Some Directory →
  ∃ line,
    output_line content = Some line ∧
    main resolve argv w =
      (Raises IsADirectoryError,
       World (files w)
             (stdout w +:+ "Sorted numbers:" +:+ newline +:+ line +:+ newline)
             (calls w ++ [CallIsFile (resolve (input_path argv));
                          CallRead (resolve (input_path argv));
                          CallWrite (resolve q)])) ∧
    exit_status (main resolve argv w).1 = 1%Z.
Proof.
  intros Hfile Hnums Hne Hq Hdir.
  pose proof (main_cases argv w) as Hmain. cbn zeta in Hmain.
  rewrite Hfile in Hmain. destruct Hmain as (nums' & Hnums' & Hmain).
  rewrite Hnums in Hnums'. injection Hnums' as <-.
  destruct nums as [|x nums]; [done|].
  destruct Hmain as (sorted & out & Hsorted & Hout & Hmain).
  rewrite Hq, Hdir in Hmain. exists (String.concat " " out).
  split_and!.
  - unfold output_line. rewrite Hnums. cbn [mbind option_bind].
    rewrite Hsorted. cbn [mbind option_bind]. by rewrite Hout.
  - rewrite Hmain. by rewrite <- !app_assoc.
  - by rewrite Hmain.
Qed.



End DriverMore.

Lemma main_output_is_directory_witness :
  exit_status
    (main (resolve_from "/home/u") ["bubblesort.py"; "in.txt"]
       (World {[ "/home/u/in.txt" := File (text_of_string "2 1");
                 "/home/u/in.sorted.txt" := Directory ]} "" [])).1 = 1%Z.
Proof.
  destruct (main_output_is_directory (resolve_from "/home/u")
              ["bubblesort.py"; "in.txt"]
              (World {[ "/home/u/in.txt" := File (text_of_string "2 1");
                        "/home/u/in.sorted.txt" := Directory ]} "" [])
              (text_of_string "2 1") [PyInt 2; PyInt 1]
              (MkPath "" ["in.sorted.txt"]))
    as (line & _ & _ & Hexit).
  - by vm_compute.
  - reflexivity.
  - done.
  - reflexivity.
  - by vm_compute.
  - exact Hexit.
Defined.
